(** * orbital-orion: the functional core and the anti-detection shell

    A shallow embedding of
      - [src/core/result.ts]                     (module [Result]),
      - [src/core/types/index.ts]                (module [Types]),
      - [src/core/fiber/traversal.ts]            (module [Traversal]),
      - [src/core/parsers/message-parser.ts]     (module [MessageParser]),
      - [src/shell/anti-detection/rate-limiter.ts] (module [RateLimiter]),
      - [src/shell/anti-detection/version-guard.ts] (module [VersionGuard]),
    followed by the properties the specification states about them.

    Conventions.
      - A fiber node is an object owned by React; the code only reads it and
        compares it by identity.  A node is therefore a reference
        ([NodeRef]) into a store that gives each reference its fields; the
        store may contain cycles and shared nodes.
      - Counts ([maxDepth], [maxNodes], [depth]) are natural numbers.
      - Untyped input ([unknown]) is a [JsValue].  JavaScript numbers are
        modelled as NaN, the two infinities, or an exact rational: rounding
        of IEEE doubles is not modelled.
      - [Date.now()], [Math.random()] and [crypto.randomUUID()] are inputs:
        every call site receives the value the call returned. *)

From Stdlib Require Import List String Ascii ZArith QArith Qabs Qround Qminmax Bool Arith Lia Lqa.
From Stdlib Require Finite.
From Equations Require Import Equations.
Import ListNotations.

Set Implicit Arguments.
Set Warnings "-register-all".

Close Scope Q_scope.
Open Scope string_scope.
Open Scope list_scope.
Open Scope nat_scope.

(* ===================================================================== *)
(** * src/core/result.ts *)
(* ===================================================================== *)

Module Result.

(** [type Result<T, E> = { ok: true; value: T } | { ok: false; error: E }];
    the constructors are the source's [ok] and [err]. *)
Inductive Result (T E : Type) : Type :=
| ok (value : T)
| err (error : E).

Arguments ok {T E} value.
Arguments err {T E} error.

Definition isOk {T E} (result : Result T E) : bool :=
  match result with ok _ => true | err _ => false end.

Definition isErr {T E} (result : Result T E) : bool :=
  negb (isOk result).

End Result.

Import Result.

(* ===================================================================== *)
(** * JavaScript values, as far as the parsers inspect them *)
(* ===================================================================== *)

Module Js.

(** A JavaScript number. *)
Inductive JsNum : Type :=
| NaN
| Infinity (negative : bool)
| Finite (q : Q).

(** A value of type [unknown].  An object is the list of its own
    properties in insertion order; arrays are objects too. *)
Inductive JsValue : Type :=
| JsUndefined
| JsNull
| JsBoolean (b : bool)
| JsNumber (n : JsNum)
| JsString (s : string)
| JsBigInt (z : Z)
| JsSymbol (description : string)
| JsFunction (name : string)
| JsObject (fields : list (string * JsValue)).

(** [typeof value]. *)
Definition typeof (value : JsValue) : string :=
  match value with
  | JsUndefined => "undefined"
  | JsNull => "object"
  | JsBoolean _ => "boolean"
  | JsNumber _ => "number"
  | JsString _ => "string"
  | JsBigInt _ => "bigint"
  | JsSymbol _ => "symbol"
  | JsFunction _ => "function"
  | JsObject _ => "object"
  end.

(** [props === null || typeof props !== "object"] is false exactly on
    objects. *)
Definition isObject (value : JsValue) : bool :=
  match value with
  | JsNull => false
  | _ => String.eqb (typeof value) "object"
  end.

Fixpoint lookup (fields : list (string * JsValue)) (name : string) : option JsValue :=
  match fields with
  | [] => None
  | (k, v) :: rest => if String.eqb k name then Some v else lookup rest name
  end.

(** [obj.name] on a value already known to be an object: an absent
    property reads as [undefined].  (None of the property names the
    parsers read is defined on [Object.prototype].) *)
Definition get (obj : JsValue) (name : string) : JsValue :=
  match obj with
  | JsObject fields =>
      match lookup fields name with
      | Some v => v
      | None => JsUndefined
      end
  | _ => JsUndefined
  end.

(** [value === null || value === undefined]. *)
Definition isNullish (value : JsValue) : bool :=
  match value with
  | JsNull | JsUndefined => true
  | _ => false
  end.

(** [a ?? b] on nullable results. *)
Definition orElse {A} (a : option A) (b : A) : A :=
  match a with Some x => x | None => b end.

End Js.

Import Js.

(* ===================================================================== *)
(** * src/core/types/index.ts *)
(* ===================================================================== *)

Module Types.

(** The identity of a fiber node. *)
Definition NodeRef : Type := nat.

Record FunctionComponent : Type := {
  name : string;
  displayName : option string
}.

Inductive FiberType : Type :=
| TypeString (s : string)
| TypeComponent (c : FunctionComponent)
| TypeNull.

(** [interface RawFiberNode]; [return], [child] and [sibling] are
    references to other nodes, or null.  ([stateNode] and [elementType]
    are never read by the core and are left out.) *)
Record RawFiberNode : Type := {
  tag : Z;
  type : FiberType;
  key : option string;
  memoizedProps : list (string * JsValue);
  memoizedState : JsValue;
  return_ : option NodeRef;
  child : option NodeRef;
  sibling : option NodeRef;
  index : Z
}.

(** The fibers React currently holds: each reference has its fields. *)
Definition FiberStore : Type := NodeRef -> RawFiberNode.

Inductive AttachmentType : Type :=
| image | video | audio | document | sticker | contact | location.

Record Attachment : Type := {
  att_id : string;
  att_type : AttachmentType;
  url : option string;
  mimeType : string;
  fileName : option string;
  fileSize : option JsNum;
  thumbnailUrl : option string;
  duration : option JsNum;
  width : option JsNum;
  height : option JsNum
}.

Inductive MessageStatus : Type :=
| pending | sent | delivered | read | played | error.

Record MessageSender : Type := {
  sender_id : string;
  sender_name : string;
  pushName : option string;
  isContact : bool
}.

Record NormalizedMessage : Type := {
  id : string;
  timestamp : JsNum;
  sender : MessageSender;
  body : string;
  isFromMe : bool;
  quotedMessageId : option string;
  attachments : list Attachment;
  status : MessageStatus;
  isForwarded : bool;
  isStarred : bool
}.

Inductive ParseErrorType : Type :=
| FIBER_NOT_FOUND
| INVALID_PROPS
| MISSING_REQUIRED_FIELD
| INVALID_MESSAGE_FORMAT
| TRAVERSAL_FAILED
| VERSION_MISMATCH.

(** [interface ParseError]; the optional [context] is never set by the
    functions embedded here and is left out. *)
Record ParseError : Type := {
  error_type : ParseErrorType;
  message : string
}.

End Types.

Import Types.

(* ===================================================================== *)
(** * src/core/fiber/traversal.ts *)
(* ===================================================================== *)

Module Traversal.

(** [type FiberPredicate = (node: RawFiberNode) => boolean].  The node
    is passed by reference; a predicate reads its fields in the store. *)
Definition FiberPredicate : Type := NodeRef -> bool.

(** [String(n)] for a count, in decimal. *)
Definition digit (n : nat) : string :=
  String (ascii_of_nat (48 + n)) EmptyString.

Fixpoint decimal (fuel n : nat) : string :=
  match fuel with
  | O => digit (n mod 10)
  | S fuel' =>
      if n <? 10 then digit n
      else (decimal fuel' (n / 10) ++ digit (n mod 10))%string
  end.

Definition String_ (n : nat) : string := decimal n n.

(** The names of the properties of [Object.prototype], which every plain
    object inherits. *)
Definition objectPrototypeKeys : list string :=
  [ "constructor"; "__defineGetter__"; "__defineSetter__"; "hasOwnProperty";
    "__lookupGetter__"; "__lookupSetter__"; "isPrototypeOf";
    "propertyIsEnumerable"; "toString"; "valueOf"; "__proto__";
    "toLocaleString" ].

Section Walks.

Variable store : FiberStore.
Variable predicate : FiberPredicate.

Section Bounded.

Variable maxDepth : nat.

(** The inner [traverse] of [traverseUpwards].  It terminates on every
    store, cyclic ones included, because [depth] grows towards
    [maxDepth]. *)
Equations? traverseUp (current : option NodeRef) (depth : nat)
  : Result NodeRef ParseError by wf (S maxDepth - depth) lt :=
  traverseUp None _ :=
    err {| error_type := TRAVERSAL_FAILED;
           message := "Reached root of fiber tree without finding match" |};
  traverseUp (Some node) depth with gt_dec depth maxDepth := {
    | left _ :=
        err {| error_type := TRAVERSAL_FAILED;
               message := ("Max depth " ++ String_ maxDepth
                           ++ " exceeded during upward traversal")%string |};
    | right notDeeper with predicate node := {
      | true := ok node;
      | false := traverseUp (return_ (store node)) (depth + 1) } }.
Proof. clear traverseUp. rewrite Nat.add_1_r. destruct depth; lia. Qed.

(** The inner [traverse] of [traverseDownwards]. *)
Equations? traverseDown (current : option NodeRef) (depth : nat)
  : Result NodeRef ParseError by wf (S maxDepth - depth) lt :=
  traverseDown None _ :=
    err {| error_type := TRAVERSAL_FAILED;
           message := "No matching node found in subtree" |};
  traverseDown (Some node) depth with gt_dec depth maxDepth := {
    | left _ :=
        err {| error_type := TRAVERSAL_FAILED;
               message := ("Max depth " ++ String_ maxDepth
                           ++ " exceeded during downward traversal")%string |};
    | right notDeeper with predicate node := {
      | true := ok node;
      | false with traverseDown (child (store node)) (depth + 1) := {
        | ok found := ok found;
        | err _ := traverseDown (sibling (store node)) (depth + 1) } } }.
Proof. all: clear traverseDown; rewrite Nat.add_1_r; destruct depth; lia. Qed.

End Bounded.

Definition traverseUpwards (fiberNode : NodeRef) (maxDepth : nat)
  : Result NodeRef ParseError :=
  traverseUp maxDepth (Some fiberNode) 0.

Definition traverseDownwards (fiberNode : NodeRef) (maxDepth : nat)
  : Result NodeRef ParseError :=
  traverseDown maxDepth (Some fiberNode) 0.

Section Collect.

Variable maxNodes : nat.

(** What the inner [traverse] of [collectNodes] mutates: the [results]
    array.  [tested] is a ghost log of the nodes handed to [predicate],
    in call order; nothing the code computes depends on it. *)
Record Walk : Type := {
  results : list NodeRef;
  tested : list NodeRef
}.

(** [if (predicate(current)) { results.push(current); }] *)
Definition test (current : NodeRef) (w : Walk) : Walk :=
  {| results := if predicate current then results w ++ [current] else results w;
     tested := tested w ++ [current] |}.

(** The inner [traverse] of [collectNodes].  Nothing bounds its depth, so
    on a store with a cycle it may recurse for ever: [fuel] bounds the
    nesting of calls, and [None] is "still running". *)
Fixpoint collect (fuel : nat) (current : option NodeRef) (w : Walk) {struct fuel}
  : option Walk :=
  match current with
  | None => Some w
  | Some node =>
      if maxNodes <=? List.length (results w) then Some w
      else
        match fuel with
        | O => None
        | S fuel' =>
            match collect fuel' (child (store node)) (test node w) with
            | None => None
            | Some w' => collect fuel' (sibling (store node)) w'
            end
        end
  end.

Definition collectWalk (fuel : nat) (fiberNode : NodeRef) : option Walk :=
  collect fuel (Some fiberNode) {| results := []; tested := [] |}.

Definition collectNodes (fuel : nat) (fiberNode : NodeRef) : option (list NodeRef) :=
  option_map results (collectWalk fuel fiberNode).

End Collect.

Definition isComponentByName (node : NodeRef) (componentName : string) : bool :=
  match type (store node) with
  | TypeNull => false
  | TypeString s => String.eqb s componentName
  | TypeComponent c =>
      String.eqb (name c) componentName
      || match displayName c with
         | Some d => String.eqb d componentName
         | None => false
         end
  end.

Definition byComponentName (name : string) : FiberPredicate :=
  fun node => isComponentByName node name.

(** [propName in node.memoizedProps].  The [in] operator also sees what
    the object inherits: the props being a plain object, the properties
    of [Object.prototype]. *)
Definition withProp (propName : string) : FiberPredicate :=
  fun node =>
    match lookup (memoizedProps (store node)) propName with
    | Some _ => true
    | None => existsb (String.eqb propName) objectPrototypeKeys
    end.

Definition allOf (predicates : list FiberPredicate) : FiberPredicate :=
  fun node => forallb (fun p => p node) predicates.

Definition anyOf (predicates : list FiberPredicate) : FiberPredicate :=
  fun node => existsb (fun p => p node) predicates.

End Walks.

End Traversal.

(* ===================================================================== *)
(** * src/core/parsers/message-parser.ts *)
(* ===================================================================== *)

Module MessageParser.

Definition parseString (value : JsValue) (fieldName : string)
  : Result string ParseError :=
  match value with
  | JsString s => ok s
  | _ => err {| error_type := INVALID_PROPS;
                message := ("Expected string for " ++ fieldName
                            ++ ", got " ++ typeof value)%string |}
  end.

Definition parseNumber (value : JsValue) (fieldName : string)
  : Result JsNum ParseError :=
  match value with
  | JsNumber (Finite q) => ok (Finite q)
  | JsNumber (Infinity s) => ok (Infinity s)
  | _ => err {| error_type := INVALID_PROPS;
                message := ("Expected number for " ++ fieldName
                            ++ ", got " ++ typeof value)%string |}
  end.

(** [value === true || value === "true" || value === 1] *)
Definition parseBoolean (value : JsValue) : bool :=
  match value with
  | JsBoolean b => b
  | JsString s => String.eqb s "true"
  | JsNumber (Finite q) => Qeq_bool q 1
  | _ => false
  end.

Definition parseOptionalString (value : JsValue) : option string :=
  match value with
  | JsString s => Some s
  | _ => None
  end.

Definition parseOptionalNumber (value : JsValue) : option JsNum :=
  match value with
  | JsNumber (Finite q) => Some (Finite q)
  | JsNumber (Infinity s) => Some (Infinity s)
  | _ => None
  end.

(** [statusMap[ack] ?? "pending"]: the table has the keys 0 to 4. *)
Definition parseMessageStatus (ack : JsValue) : MessageStatus :=
  match ack with
  | JsNumber (Finite q) =>
      if Qeq_bool q 0 then pending
      else if Qeq_bool q 1 then sent
      else if Qeq_bool q 2 then delivered
      else if Qeq_bool q 3 then read
      else if Qeq_bool q 4 then played
      else pending
  | _ => pending
  end.

Definition validTypes : list (string * AttachmentType) :=
  [ ("image", image); ("video", video); ("audio", audio);
    ("document", document); ("sticker", sticker); ("contact", contact);
    ("location", location) ].

Fixpoint includes (types : list (string * AttachmentType)) (s : string)
  : option AttachmentType :=
  match types with
  | [] => None
  | (name, t) :: rest => if String.eqb name s then Some t else includes rest s
  end.

Definition parseAttachmentType (type : JsValue) : option AttachmentType :=
  match type with
  | JsString s => includes validTypes s
  | _ => None
  end.

Definition parseSender (props : JsValue) : Result MessageSender ParseError :=
  if negb (isObject props) then
    err {| error_type := INVALID_PROPS;
           message := "Sender props must be an object" |}
  else
    let senderProps := props in
    if isNullish (get senderProps "id") then
      err {| error_type := MISSING_REQUIRED_FIELD;
             message := "Sender ID is required" |}
    else
      match parseString (get senderProps "id") "sender.id" with
      | err e => err e
      | ok idValue =>
          ok {| sender_id := idValue;
                sender_name :=
                  orElse (parseOptionalString (get senderProps "name")) idValue;
                pushName := parseOptionalString (get senderProps "pushname");
                isContact := parseBoolean (get senderProps "isContact") |}
      end.

(** [uuid] is what [crypto.randomUUID()] returns when it is called. *)
Definition parseAttachment (uuid : string) (props : JsValue)
  : Result Attachment ParseError :=
  if negb (isObject props) then
    err {| error_type := INVALID_PROPS;
           message := "Attachment props must be an object" |}
  else
    let mediaProps := props in
    match parseAttachmentType (get mediaProps "type") with
    | None =>
        err {| error_type := INVALID_PROPS;
               message := "Invalid attachment type" |}
    | Some attachmentType =>
        ok {| att_id := uuid;
              att_type := attachmentType;
              url := parseOptionalString (get mediaProps "url");
              mimeType :=
                orElse (parseOptionalString (get mediaProps "mimetype"))
                       "application/octet-stream";
              fileName := parseOptionalString (get mediaProps "filename");
              fileSize := parseOptionalNumber (get mediaProps "size");
              thumbnailUrl := None;
              duration := parseOptionalNumber (get mediaProps "duration");
              width := parseOptionalNumber (get mediaProps "width");
              height := parseOptionalNumber (get mediaProps "height") |}
    end.

(** The block "Parse optional attachments" of [parseMessage]: the array
    starts empty and receives at most one [push]. *)
Definition parseAttachments (uuid : string) (mediaData : JsValue)
  : list Attachment :=
  if negb (isNullish mediaData) then
    match parseAttachment uuid mediaData with
    | ok value => [] ++ [value]
    | err _ => []
    end
  else [].

Definition parseMessage (uuid : string) (props : JsValue)
  : Result NormalizedMessage ParseError :=
  if negb (isObject props) then
    err {| error_type := INVALID_PROPS;
           message := "Message props must be an object" |}
  else
    let msgProps := props in
    if isNullish (get msgProps "id") then
      err {| error_type := MISSING_REQUIRED_FIELD;
             message := "Message ID is required" |}
    else if isNullish (get msgProps "t") then
      err {| error_type := MISSING_REQUIRED_FIELD;
             message := "Message timestamp is required" |}
    else
      match parseString (get msgProps "id") "id" with
      | err e => err e
      | ok idValue =>
          match parseNumber (get msgProps "t") "timestamp" with
          | err e => err e
          | ok timestampValue =>
              let attachments := parseAttachments uuid (get msgProps "mediaData") in
              ok {| id := idValue;
                    timestamp := timestampValue;
                    sender :=
                      {| sender_id :=
                           orElse (parseOptionalString (get msgProps "from")) "unknown";
                         sender_name :=
                           orElse (parseOptionalString (get msgProps "from")) "Unknown";
                         pushName := None;
                         isContact := false |};
                    body := orElse (parseOptionalString (get msgProps "body")) "";
                    isFromMe := parseBoolean (get msgProps "self");
                    quotedMessageId :=
                      parseOptionalString
                        (if isObject (get msgProps "quotedMsg")
                         then get (get msgProps "quotedMsg") "id"
                         else JsNull);
                    attachments := attachments;
                    status := parseMessageStatus (get msgProps "ack");
                    isForwarded := parseBoolean (get msgProps "isForwarded");
                    isStarred := parseBoolean (get msgProps "isStarred") |}
          end
      end.

(** [node.memoizedProps["message"] ?? node.memoizedProps["msg"]] *)
Definition extractMessageFromFiber (uuid : string) (node : RawFiberNode)
  : Result NormalizedMessage ParseError :=
  let props := JsObject (memoizedProps node) in
  let messageProps :=
    if isNullish (get props "message") then get props "msg"
    else get props "message" in
  match messageProps with
  | JsUndefined =>
      err {| error_type := MISSING_REQUIRED_FIELD;
             message := "No message property found in Fiber node props" |}
  | _ => parseMessage uuid messageProps
  end.

End MessageParser.

(* ===================================================================== *)
(** * src/shell/anti-detection/rate-limiter.ts *)
(* ===================================================================== *)

Module RateLimiter.

Local Open Scope Q_scope.

Record PauseDuration : Type := {
  min : Q;
  max : Q
}.

Record RateLimiterConfig : Type := {
  maxTokens : Q;
  refillRate : Q;     (* tokens per millisecond *)
  pauseInterval : Q;  (* ms between mandatory pauses *)
  pauseDuration : PauseDuration
}.

Record RateLimiterState : Type := {
  tokens : Q;
  lastRefill : Q;
  lastPauseCheck : Q;
  pausedUntil : option Q
}.

Section Limiter.

Variable config : RateLimiterConfig.

(** The initial [state] of [createRateLimiter]; [Date.now()] is read
    twice. *)
Definition createRateLimiter (now1 now2 : Q) : RateLimiterState :=
  {| tokens := maxTokens config;
     lastRefill := now1;
     lastPauseCheck := now2;
     pausedUntil := None |}.

Definition refillTokens (now : Q) (state : RateLimiterState) : RateLimiterState :=
  let elapsed := now - lastRefill state in
  let tokensToAdd := elapsed * refillRate config in
  {| tokens := Qmin (maxTokens config) (tokens state + tokensToAdd);
     lastRefill := now;
     lastPauseCheck := lastPauseCheck state;
     pausedUntil := pausedUntil state |}.

(** [random] is what [Math.random()] returns when it is called. *)
Definition checkMandatoryPause (now random : Q) (state : RateLimiterState)
  : RateLimiterState :=
  if Qle_bool (pauseInterval config) (now - lastPauseCheck state) then
    let pauseDuration :=
      min (pauseDuration config)
      + random * (max (pauseDuration config) - min (pauseDuration config)) in
    {| tokens := tokens state;
       lastRefill := lastRefill state;
       lastPauseCheck := now;
       pausedUntil := Some (now + pauseDuration) |}
  else state.

Definition isPaused (now : Q) (state : RateLimiterState)
  : bool * RateLimiterState :=
  match pausedUntil state with
  | None => (false, state)
  | Some untilTime =>
      if Qle_bool untilTime now then
        (false,
         {| tokens := tokens state;
            lastRefill := lastRefill state;
            lastPauseCheck := lastPauseCheck state;
            pausedUntil := None |})
      else (true, state)
  end.

(** [tryConsume(count)].  The three functions it calls read the clock
    one after the other: [nowCheck] in [checkMandatoryPause], [nowPaused]
    in [isPaused], [nowRefill] in [refillTokens]. *)
Definition tryConsume (nowCheck random nowPaused nowRefill : Q) (count : Q)
  (state : RateLimiterState) : bool * RateLimiterState :=
  let state1 := checkMandatoryPause nowCheck random state in
  let (paused, state2) := isPaused nowPaused state1 in
  if paused then (false, state2)
  else
    let state3 := refillTokens nowRefill state2 in
    if negb (Qle_bool count (tokens state3)) then (false, state3)
    else
      (true,
       {| tokens := tokens state3 - count;
          lastRefill := lastRefill state3;
          lastPauseCheck := lastPauseCheck state3;
          pausedUntil := pausedUntil state3 |}).

Definition getTokens (now : Q) (state : RateLimiterState) : Z * RateLimiterState :=
  let state1 := refillTokens now state in
  (Qfloor (tokens state1), state1).

Definition getResumeTime (state : RateLimiterState) : option Q :=
  pausedUntil state.

Definition reset (now1 now2 : Q) (state : RateLimiterState) : RateLimiterState :=
  {| tokens := maxTokens config;
     lastRefill := now1;
     lastPauseCheck := now2;
     pausedUntil := None |}.

End Limiter.

End RateLimiter.

(* ===================================================================== *)
(** * src/shell/anti-detection/version-guard.ts *)
(* ===================================================================== *)

Module VersionGuard.

Local Open Scope Z_scope.

(** A JavaScript string is a sequence of UTF-16 code units. *)
Definition JsString16 : Type := list Z.

Definition isHighSurrogate (u : Z) : bool := (55296 <=? u) && (u <=? 56319).
Definition isLowSurrogate (u : Z) : bool := (56320 <=? u) && (u <=? 57343).

(** [Array.from(str)]: one element per code point, so a surrogate pair
    is one element of two code units. *)
Fixpoint Array_from (str : JsString16) : list JsString16 :=
  match str with
  | [] => []
  | u :: rest =>
      match rest with
      | v :: rest' =>
          if isHighSurrogate u && isLowSurrogate v
          then [u; v] :: Array_from rest'
          else [u] :: Array_from rest
      | [] => [[u]]
      end
  end.

(** [char.charCodeAt(0)] on an element of [Array.from(str)]. *)
Definition charCodeAt0 (char : JsString16) : Z := hd 0 char.

(** ToInt32 of ECMAScript, on integers. *)
Definition ToInt32 (z : Z) : Z :=
  let m := z mod 4294967296 in
  if 2147483648 <=? m then m - 4294967296 else m.

(** [a << n] *)
Definition shl (a n : Z) : Z := ToInt32 (Z.shiftl (ToInt32 a) (n mod 32)).

(** [a | b] *)
Definition bor (a b : Z) : Z := ToInt32 (Z.lor (ToInt32 a) (ToInt32 b)).

(** The callback of the [reduce]: [((acc << 5) - acc + code) | 0]. *)
Definition step (acc : Z) (char : JsString16) : Z :=
  let code := charCodeAt0 char in
  bor (shl acc 5 - acc + code) 0.

(** [parts.join("|")] *)
Fixpoint join (parts : list JsString16) : JsString16 :=
  match parts with
  | [] => []
  | [part] => part
  | part :: rest => part ++ [124] ++ join rest
  end.

Definition hexDigit (d : Z) : string :=
  String (ascii_of_nat (Z.to_nat (if d <? 10 then 48 + d else 87 + d))) EmptyString.

Fixpoint hexDigits (fuel : nat) (n : Z) : string :=
  match fuel with
  | O => hexDigit (n mod 16)
  | S fuel' =>
      if n <? 16 then hexDigit n
      else (hexDigits fuel' (n / 16) ++ hexDigit (n mod 16))%string
  end.

(** [hash.toString(16)] on a 32-bit integer: a sign, then the digits of
    the magnitude (at most eight). *)
Definition toString16 (hash : Z) : string :=
  if hash <? 0 then ("-" ++ hexDigits 8 (- hash))%string
  else hexDigits 8 hash.

(** The integer [hash] of [generateDomHash], from the [parts] the loop
    over the selectors has pushed. *)
Definition hashOfParts (parts : list JsString16) : Z :=
  let str := join parts in
  fold_left step (Array_from str) 0.

(** [generateDomHash], from the [parts] on: the loop that fills [parts]
    reads the document and is outside this embedding. *)
Definition generateDomHash (parts : list JsString16) : string :=
  toString16 (hashOfParts parts).

End VersionGuard.

(* ===================================================================== *)
(** * src/core/result.ts: the combinators *)
(* ===================================================================== *)

Module ResultOps.

Definition map {T U E} (result : Result T E) (fn : T -> U) : Result U E :=
  match result with
  | ok value => ok (fn value)
  | err e => err e
  end.

Definition mapErr {T E F} (result : Result T E) (fn : E -> F) : Result T F :=
  match result with
  | ok value => ok value
  | err e => err (fn e)
  end.

Definition flatMap {T U E} (result : Result T E) (fn : T -> Result U E)
  : Result U E :=
  match result with
  | ok value => fn value
  | err e => err e
  end.

Definition unwrapOr {T E} (result : Result T E) (defaultValue : T) : T :=
  match result with
  | ok value => value
  | err _ => defaultValue
  end.

Record Handlers (T E U : Type) : Type := {
  onOk : T -> U;
  onErr : E -> U
}.

Definition match_ {T E U} (result : Result T E) (handlers : Handlers T E U) : U :=
  match result with
  | ok value => onOk handlers value
  | err e => onErr handlers e
  end.

(** [value != null ? ok(value) : err(error)]; a value of type
    [T | null | undefined] is an [option T]. *)
Definition fromNullable {T E} (value : option T) (error : E) : Result T E :=
  match value with
  | Some v => ok v
  | None => err error
  end.

(** The loop of [combine]: [values] is the array filled so far. *)
Fixpoint combineLoop {T E} (values : list T) (results : list (Result T E))
  : Result (list T) E :=
  match results with
  | [] => ok values
  | ok value :: rest => combineLoop (values ++ [value]) rest
  | err e :: _ => err e
  end.

Definition combine {T E} (results : list (Result T E)) : Result (list T) E :=
  combineLoop [] results.

End ResultOps.

(* ===================================================================== *)
(** * src/core/fiber/traversal.ts: the fiber key of an element *)
(* ===================================================================== *)

Module TraversalKeys.

(** [key.startsWith(keyPrefix)] *)
Definition startsWith (key keyPrefix : string) : bool :=
  String.prefix keyPrefix key.

Definition findFiberPropertyKey (elementKeys : list string) (keyPrefix : string)
  : option string :=
  find (fun key => startsWith key keyPrefix) elementKeys.

Definition getReactFiberPrefixes : list string :=
  [ "__reactFiber$"; "__reactInternalInstance$"; "__reactProps$" ].

End TraversalKeys.

(* ===================================================================== *)
(** * src/shell/anti-detection/scroller.ts *)
(* ===================================================================== *)

Module Scroller.

Local Open Scope Q_scope.

Record ScrollResult : Type := {
  distance : Q;
  duration : Q
}.

Inductive Direction : Type := up | down.

Definition cubicBezier (t p0 p1 p2 p3 : Q) : Q :=
  let oneMinusT := 1 - t in
  let oneMinusTSquared := oneMinusT * oneMinusT in
  let oneMinusTCubed := oneMinusTSquared * oneMinusT in
  let tSquared := t * t in
  let tCubed := tSquared * t in
  oneMinusTCubed * p0
  + 3 * oneMinusTSquared * t * p1
  + 3 * oneMinusT * tSquared * p2
  + tCubed * p3.

(** [random] is what [Math.random()] returns when it is called. *)
Definition jitter (base variance random : Q) : Q :=
  base + (random - (1 # 2)) * 2 * variance.

(** The delay [randomDelay] hands to [setTimeout]. *)
Definition randomDelay (min max random : Q) : Q :=
  min + random * (max - min).

Section PerformScroll.

(** What [element.scrollTop] holds after [element.scrollTop = v]: a
    document element may clamp or round the value, the plain object of
    the tests keeps it. *)
Variable assign : Q -> Q.

Variable startPosition : Q.        (* [element.scrollTop] at the call *)
Variable targetDistance : Q.
Variable direction : Direction.
Variable randomDistance : Q.       (* first [Math.random()] *)
Variable randomDuration : Q.       (* second [Math.random()] *)
Variable startTime : Q.            (* [performance.now()] at the call *)

Definition sign : Q :=
  match direction with
  | up => - (1)
  | down => 1
  end.

Definition actualDistance : Q :=
  jitter targetDistance (targetDistance * (15 # 100)) randomDistance.

Definition scrollDuration : Q := jitter 400 100 randomDuration.

(** [progress] in one call of [animate]. *)
Definition progressAt (currentTime : Q) : Q :=
  let elapsed := currentTime - startTime in
  Qmin (elapsed / scrollDuration) 1.

(** [newPosition] in one call of [animate]. *)
Definition positionAt (currentTime : Q) : Q :=
  let easedProgress :=
    cubicBezier (progressAt currentTime) 0 (42 # 100) (58 # 100) 1 in
  startPosition + sign * actualDistance * easedProgress.

(** The chain of [animate] calls, one per animation frame; [frames] are
    the timestamps the frames are called with and [scrollTop] is what
    the element holds.  [None]: the frames given do not finish the
    motion, the promise is still pending. *)
Fixpoint animate (frames : list Q) (scrollTop : Q) : option Q :=
  match frames with
  | [] => None
  | currentTime :: rest =>
      let scrollTop' := assign (positionAt currentTime) in
      if negb (Qle_bool 1 (progressAt currentTime))
      then animate rest scrollTop'
      else Some scrollTop'
  end.

(** [performScroll]: the result the promise resolves with, and the
    micro-pause waited before resolving, if any.  [randomPause] and
    [randomWait] are the third and fourth [Math.random()], [endTime] is
    [performance.now()] when the promise resolves. *)
Definition performScroll (frames : list Q) (randomPause randomWait endTime : Q)
  : option (ScrollResult * option Q) :=
  match animate frames startPosition with
  | None => None
  | Some scrollTop =>
      let microPauseChance := 3 # 10 in
      let shouldPause := negb (Qle_bool microPauseChance randomPause) in
      Some ({| distance := Qabs (scrollTop - startPosition);
               duration := endTime - startTime |},
            if shouldPause then Some (randomDelay 50 200 randomWait) else None)
  end.

End PerformScroll.

Definition scrollUp (assign : Q -> Q) (startPosition targetDistance : Q) :=
  performScroll assign startPosition targetDistance up.

Definition scrollDown (assign : Q -> Q) (startPosition targetDistance : Q) :=
  performScroll assign startPosition targetDistance down.

End Scroller.

(* ===================================================================== *)
(** * src/shell/anti-detection/version-guard.ts: the guard *)
(* ===================================================================== *)

Module VersionGuardSession.

Import VersionGuard.

(** [localStorage], as far as the guard uses it: reading or writing may
    throw (storage disabled, quota exceeded). *)
Record LocalStorage : Type := {
  getItemThrows : bool;
  setItemThrows : bool;
  items : list (string * string)
}.

Fixpoint getStored (items : list (string * string)) (key : string) : option string :=
  match items with
  | [] => None
  | (k, v) :: rest => if String.eqb k key then Some v else getStored rest key
  end.

Fixpoint putStored (items : list (string * string)) (key value : string)
  : list (string * string) :=
  match items with
  | [] => [(key, value)]
  | (k, v) :: rest =>
      if String.eqb k key then (k, value) :: rest
      else (k, v) :: putStored rest key value
  end.

(** [localStorage.getItem(key)]; [None] is a throw. *)
Definition getItem (storage : LocalStorage) (key : string) : option (option string) :=
  if getItemThrows storage then None else Some (getStored (items storage) key).

(** [localStorage.setItem(key, value)]; [None] is a throw. *)
Definition setItem (storage : LocalStorage) (key value : string) : option LocalStorage :=
  if setItemThrows storage then None
  else Some {| getItemThrows := getItemThrows storage;
               setItemThrows := setItemThrows storage;
               items := putStored (items storage) key value |}.

Definition STORAGE_KEY : string := "whatsapp-fiber-scraper-version-hash".

Record VersionCheckResult : Type := {
  currentHash : string;
  isCompatible : bool
}.

(** The guard's [storedHash.value], with the storage it talks to. *)
Record Guard : Type := {
  storedHash : option string;
  storage : LocalStorage
}.

(** [createVersionGuard()]: [loadStoredHash] runs once. *)
Definition createVersionGuard (localStorage : LocalStorage) : Guard :=
  {| storedHash :=
       match getItem localStorage STORAGE_KEY with
       | Some value => value
       | None => None
       end;
     storage := localStorage |}.

Definition getStoredHash (guard : Guard) : option string := storedHash guard.

Definition updateHash (hash : string) (guard : Guard) : Guard :=
  {| storedHash := Some hash;
     storage :=
       match setItem (storage guard) STORAGE_KEY hash with
       | Some storage' => storage'
       | None => storage guard
       end |}.

(** [check()]; [parts] is what probing the document gives at the time
    of the call. *)
Definition check (parts : list JsString16) (guard : Guard)
  : VersionCheckResult * Guard :=
  let currentHash := generateDomHash parts in
  match storedHash guard with
  | None =>
      ({| currentHash := currentHash; isCompatible := true |},
       updateHash currentHash guard)
  | Some stored =>
      ({| currentHash := currentHash;
          isCompatible := String.eqb stored currentHash |},
       guard)
  end.

End VersionGuardSession.

(* ===================================================================== *)
(** * src/shell/messaging/types.ts and the listener of src/inject/main-world.ts *)
(* ===================================================================== *)

Module Messaging.

(** [key in obj] on a plain object, for a key that [Object.prototype]
    does not define; the guard asks for "event" only. *)
Definition hasKey (obj : JsValue) (key : string) : bool :=
  match obj with
  | JsObject fields =>
      match lookup fields key with
      | Some _ => true
      | None => false
      end
  | _ => false
  end.

(** [a === s] for a string literal [s]. *)
Definition isString (value : JsValue) (s : string) : bool :=
  match value with
  | JsString v => String.eqb v s
  | _ => false
  end.

Definition isWindowMessage (data : JsValue) : bool :=
  if negb (isObject data) then false
  else
    let obj := data in
    isString (get obj "source") "whatsapp-scraper" && hasKey obj "event".

(** [event.type === "SCRAPE_COMMAND"], on an event that is not null or
    undefined. *)
Definition isScrapeCommand (event : JsValue) : bool :=
  isString (get event "type") "SCRAPE_COMMAND".

(** What the [message] listener of the main-world script does with a
    message: nothing, start a scrape with a scroll depth, or throw a
    TypeError on reading a property of null or undefined. *)
Inductive Dispatch : Type :=
| Ignored
| Scrape (scrollDepth : JsValue)
| TypeError.

(** [fromWindow] is [event.source === window]; [data] is [event.data]. *)
Definition onMessage (fromWindow : bool) (data : JsValue) : Dispatch :=
  if negb fromWindow then Ignored
  else if negb (isWindowMessage data) then Ignored
  else
    let extensionEvent := get data "event" in
    if isNullish extensionEvent then TypeError
    else if isScrapeCommand extensionEvent then
      if isNullish (get extensionEvent "payload") then TypeError
      else Scrape (get (get extensionEvent "payload") "scrollDepth")
    else Ignored.

End Messaging.

(* ===================================================================== *)
(** * src/inject/main-world.ts: from an element to its messages *)
(* ===================================================================== *)

Module MainWorld.

Import Traversal MessageParser TraversalKeys.

(** [getFiberFromElement]; the element is the list of its own
    properties, [Object.keys] order. *)
Definition getFiberFromElement (element : list (string * JsValue)) : option JsValue :=
  let keys := List.map fst element in
  (fix loop (prefixes : list string) : option JsValue :=
     match prefixes with
     | [] => None
     | prefix :: rest =>
         match findFiberPropertyKey keys prefix with
         | Some fiberKey =>
             let fiber := get (JsObject element) fiberKey in
             if isObject fiber then Some fiber else loop rest
         | None => loop rest
         end
     end) getReactFiberPrefixes.

Section Extract.

Variable store : FiberStore.

(** The identifiers [crypto.randomUUID()] returns, call after call. *)
Variable uuids : nat -> string.

(** The loop of [extractMessages] over [messageNodes]; [next] counts the
    calls of [crypto.randomUUID()] made so far.  [parseMessage] makes one
    call exactly when it returns a message with an attachment. *)
Fixpoint extractLoop (next : nat) (messageNodes : list NodeRef)
  : list NormalizedMessage * nat :=
  match messageNodes with
  | [] => ([], next)
  | node :: rest =>
      match extractMessageFromFiber (uuids next) (store node) with
      | ok value =>
          let next' :=
            match attachments value with
            | [] => next
            | _ :: _ => S next
            end in
          let (messages, final) := extractLoop next' rest in
          (value :: messages, final)
      | err _ => extractLoop next rest
      end
  end.

(** [extractMessages], from the fiber of the chat container on.
    [None]: [collectNodes] has not returned within [fuel]. *)
Definition extractMessages (fuel : nat) (next : nat) (fiber : NodeRef)
  : option (list NormalizedMessage * nat) :=
  match collectNodes store (byComponentName store "Message") 500 fuel fiber with
  | None => None
  | Some messageNodes => Some (extractLoop next messageNodes)
  end.

End Extract.

End MainWorld.

(* ===================================================================== *)
(** * Vocabulary of the specification: traversal *)
(* ===================================================================== *)

Module TraversalSpec.

Import Traversal.

(** The tag of a failed result. *)
Definition errorTypeOf {T} (result : Result T ParseError) : option ParseErrorType :=
  match result with
  | ok _ => None
  | err e => Some (error_type e)
  end.

Section Chains.

Variable store : FiberStore.

(** The node [depth] parent links above [current]; depth 0 is [current]
    itself, and [None] is a null link. *)
Fixpoint ancestorAt (current : option NodeRef) (depth : nat) : option NodeRef :=
  match depth with
  | O => current
  | S depth' =>
      match current with
      | None => None
      | Some node => ancestorAt (return_ (store node)) depth'
      end
  end.

(** No node of the chain above [current] at a depth below [depth]
    satisfies [predicate]. *)
Definition noMatchBelow (predicate : FiberPredicate) (current : option NodeRef)
  (depth : nat) : Prop :=
  forall k node, k < depth -> ancestorAt current k = Some node ->
                 predicate node = false.

(** A finite tree of fibers, as the walks see it: a node, the tree under
    its [child] link and the tree under its [sibling] link. *)
Inductive Tree : Type :=
| Leaf
| Node (node : NodeRef) (children siblings : Tree).

(** The store has the shape of [t] from [current] on. *)
Fixpoint shape (current : option NodeRef) (t : Tree) : Prop :=
  match t, current with
  | Leaf, None => True
  | Node node c s, Some r =>
      r = node /\ shape (child (store node)) c /\ shape (sibling (store node)) s
  | _, _ => False
  end.

End Chains.

(** Depth-first pre-order: the node, then the first-child subtree, then
    the next-sibling subtree. *)
Fixpoint preorder (t : Tree) : list NodeRef :=
  match t with
  | Leaf => []
  | Node node c s => node :: preorder c ++ preorder s
  end.

(** Pre-order with the number the code keeps in [depth] for each node:
    the number of links, [child] or [sibling], followed from the starting
    node.  This is not the depth of the node in the tree: the next
    sibling of a node is one link further than the node. *)
Fixpoint preorderLinks (links : nat) (t : Tree) : list (NodeRef * nat) :=
  match t with
  | Leaf => []
  | Node node c s =>
      (node, links) :: preorderLinks (S links) c ++ preorderLinks (S links) s
  end.

Definition withinDepth (maxDepth : nat) (nd : NodeRef * nat) : bool :=
  snd nd <=? maxDepth.

(** The nodes at most [maxDepth] links from the starting node, in
    pre-order; the starting node's own siblings, and what is below them,
    are among the nodes. *)
Definition linkBoundedPreorder (maxDepth : nat) (t : Tree) : list NodeRef :=
  map fst (filter (withinDepth maxDepth) (preorderLinks 0 t)).

(** The specification's words, "the nodes of the subtree whose depth does
    not exceed maxDepth": the depth of a node is its level under the
    starting node, so the children of a node are all one level below it
    and a sibling is at the level of the node. *)
Fixpoint specPreorderDepth (depth : nat) (t : Tree) : list (NodeRef * nat) :=
  match t with
  | Leaf => []
  | Node node c s =>
      (node, depth) :: specPreorderDepth (S depth) c ++ specPreorderDepth depth s
  end.

(** The subtree of the starting node: the node and what is below it,
    without its siblings. *)
Definition specSubtree (t : Tree) : Tree :=
  match t with
  | Leaf => Leaf
  | Node node c _ => Node node c Leaf
  end.

Definition specBoundedPreorder (maxDepth : nat) (t : Tree) : list NodeRef :=
  map fst (filter (withinDepth maxDepth) (specPreorderDepth 0 (specSubtree t))).

(** The nodes a walk that stops after [n] matches hands to [predicate]:
    the shortest prefix of [nodes] that holds [n] matches, or all of
    [nodes] when there are fewer. *)
Fixpoint testedUntil (predicate : FiberPredicate) (n : nat) (nodes : list NodeRef)
  : list NodeRef :=
  match n, nodes with
  | O, _ => []
  | _, [] => []
  | S n', node :: rest =>
      node :: testedUntil predicate (if predicate node then n' else n) rest
  end.

(** The longest chain of links, [child] or [sibling], in the tree,
    counted in nodes: how deep the calls of a walk nest. *)
Definition height : Tree -> nat :=
  fix height (t : Tree) : nat :=
    match t with
    | Leaf => 0
    | Node _ c s => S (Nat.max (height c) (height s))
    end.

End TraversalSpec.

(* ===================================================================== *)
(** * Vocabulary of the specification: rate limiter *)
(* ===================================================================== *)

Module RateLimiterSpec.

Import RateLimiter.

Local Open Scope Q_scope.

(** The tokens a refill at time [now] leaves in the bucket:
    [tokens += elapsed * refillRate], capped at [maxTokens]. *)
Definition refilled (config : RateLimiterConfig) (now : Q)
  (state : RateLimiterState) : Q :=
  Qmin (maxTokens config)
       (tokens state + (now - lastRefill state) * refillRate config).

End RateLimiterSpec.

(* ===================================================================== *)
(** * Vocabulary of the specification: drift fingerprint *)
(* ===================================================================== *)

Module VersionGuardSpec.

Import VersionGuard.

Local Open Scope Z_scope.

(** The codes the [reduce] of [generateDomHash] consumes, in order: the
    first code unit of each element of [Array.from(str)]. *)
Definition charCodes (str : JsString16) : list Z :=
  map charCodeAt0 (Array_from str).

(** Wrapping to a 32-bit signed integer: the representative of [z]
    modulo 2^32 in [[-2^31, 2^31)]. *)
Definition wrapSigned32 (z : Z) : Z :=
  (z + 2 ^ 31) mod 2 ^ 32 - 2 ^ 31.

(** The specification's polynomial rolling hash:
    [acc = acc*31 + charCode], wrapped to 32 bits at each step.  The
    char codes of a string are its UTF-16 code units, [str.charCodeAt(i)]
    for each position [i]: the list that represents the string. *)
Definition rollingHash (codes : list Z) : Z :=
  fold_left (fun acc code => wrapSigned32 (acc * 31 + code)) codes 0.

(** The delimiter between two segments.  The specification leaves it
    open; "|" is the code's. *)
Definition delimiter : JsString16 := [124].

(** The specification's "segments are joined with a delimiter": the
    first segment, then each other segment after a delimiter. *)
Definition joined (segments : list JsString16) : JsString16 :=
  match segments with
  | [] => []
  | first :: others => first ++ flat_map (fun segment => delimiter ++ segment) others
  end.

(** The two halves of a surrogate pair: a code unit in D800..DBFF, then
    one in DC00..DFFF. *)
Definition leadSurrogate (u : Z) : bool := u / 1024 =? 54.
Definition trailSurrogate (u : Z) : bool := u / 1024 =? 55.

(** The string has a surrogate pair: a lead surrogate immediately
    followed by a trail surrogate. *)
Fixpoint hasSurrogatePair (str : JsString16) : bool :=
  match str with
  | [] => false
  | u :: rest =>
      match rest with
      | v :: _ => leadSurrogate u && trailSurrogate v
      | [] => false
      end
      || hasSurrogatePair rest
  end.

(** The code units of a string without the second half of each surrogate
    pair; [afterLead] tells that the unit before was a lead surrogate
    that was kept. *)
Fixpoint dropTrails (afterLead : bool) (str : JsString16) : list Z :=
  match str with
  | [] => []
  | u :: rest =>
      if afterLead && trailSurrogate u then dropTrails false rest
      else u :: dropTrails (leadSurrogate u) rest
  end.

Definition leadingUnits (str : JsString16) : list Z := dropTrails false str.

End VersionGuardSpec.

(* ===================================================================== *)
(** * Fixtures *)
(* ===================================================================== *)

Module Fixtures.

Import Traversal TraversalSpec.

(** A fiber with the given links and nothing else, like the tests'
    [createMockFiberNode]. *)
Definition createMockFiberNode (ret c s : option NodeRef) : RawFiberNode :=
  {| tag := 0%Z;
     type := TypeNull;
     key := None;
     memoizedProps := [];
     memoizedState := JsNull;
     return_ := ret;
     child := c;
     sibling := s;
     index := 0%Z |}.

(** Five fibers: 0 is the root; 1 and 2 are its children, in this order;
    3 is the child of 1 and 4 the child of 2. *)
Definition family : FiberStore :=
  fun r =>
    match r with
    | 0 => createMockFiberNode None (Some 1) None
    | 1 => createMockFiberNode (Some 0) (Some 3) (Some 2)
    | 2 => createMockFiberNode (Some 0) (Some 4) None
    | 3 => createMockFiberNode (Some 1) None None
    | 4 => createMockFiberNode (Some 2) None None
    | _ => createMockFiberNode None None None
    end.

Definition familyTree : Tree :=
  Node 0 (Node 1 (Node 3 Leaf Leaf) (Node 2 (Node 4 Leaf Leaf) Leaf)) Leaf.

(** Two fibers that are each other's parent. *)
Definition loop : FiberStore :=
  fun r =>
    match r with
    | 0 => createMockFiberNode (Some 1) None None
    | _ => createMockFiberNode (Some 0) None None
    end.

(** A message with an image, and one with the two required fields
    only. *)
Definition mediaMessageProps : JsValue :=
  JsObject [ ("id", JsString "m1");
             ("t", JsNumber (Finite 1700000000));
             ("mediaData", JsObject [("type", JsString "image")]) ].

Definition bareMessageProps : JsValue :=
  JsObject [ ("id", JsString "m1"); ("t", JsNumber (Finite 5)) ].

Definition bareMessage : NormalizedMessage :=
  {| id := "m1";
     timestamp := Finite 5;
     sender := {| sender_id := "unknown";
                  sender_name := "Unknown";
                  pushName := None;
                  isContact := false |};
     body := "";
     isFromMe := false;
     quotedMessageId := None;
     attachments := [];
     status := pending;
     isForwarded := false;
     isStarred := false |}.

(** The configurations of the limiter's tests. *)
Definition bucketConfig : RateLimiter.RateLimiterConfig :=
  {| RateLimiter.maxTokens := 10%Q;
     RateLimiter.refillRate := (1 # 100)%Q;
     RateLimiter.pauseInterval := 60000%Q;
     RateLimiter.pauseDuration :=
       {| RateLimiter.min := 1000%Q; RateLimiter.max := 2000%Q |} |}.

Definition pauseConfig : RateLimiter.RateLimiterConfig :=
  {| RateLimiter.maxTokens := 100%Q;
     RateLimiter.refillRate := (1 # 10)%Q;
     RateLimiter.pauseInterval := 1000%Q;
     RateLimiter.pauseDuration :=
       {| RateLimiter.min := 500%Q; RateLimiter.max := 500%Q |} |}.

(** A limiter created at time 0 whose pause window, armed earlier, runs
    until 1200. *)
Definition pausedState : RateLimiter.RateLimiterState :=
  {| RateLimiter.tokens := 100%Q;
     RateLimiter.lastRefill := 0%Q;
     RateLimiter.lastPauseCheck := 0%Q;
     RateLimiter.pausedUntil := Some 1200%Q |}.

End Fixtures.

(* ===================================================================== *)
(** * Vocabulary of the specification: a session of limiter calls *)
(* ===================================================================== *)

Module RateLimiterRuns.

Import RateLimiter.

Local Open Scope Q_scope.

(** One call of [tryConsume]: the clock and random values it reads, and
    its argument. *)
Record Call : Type := {
  nowCheck : Q;
  random : Q;
  nowPaused : Q;
  nowRefill : Q;
  count : Q
}.

(** A caller making [calls] one after the other on one limiter: the sum
    of the counts that were granted, and the final state. *)
Fixpoint run (config : RateLimiterConfig) (calls : list Call)
  (state : RateLimiterState) : Q * RateLimiterState :=
  match calls with
  | [] => (0, state)
  | call :: rest =>
      let (granted, state') :=
        tryConsume config (nowCheck call) (random call) (nowPaused call)
                   (nowRefill call) (count call) state in
      let (total, final) := run config rest state' in
      ((if granted then count call else 0) + total, final)
  end.

(** The bucket holds between 0 and [maxTokens] tokens. *)
Definition inBounds (config : RateLimiterConfig) (state : RateLimiterState) : Prop :=
  0 <= tokens state /\ tokens state <= maxTokens config.

End RateLimiterRuns.

(* ===================================================================== *)
(** * Vocabulary of the specification: reachable fibers *)
(* ===================================================================== *)

Module TraversalReach.

Section Reach.

Variable store : FiberStore.

(** [linked from d to]: [to] is [d] links, [child] or [sibling], away
    from [from]. *)
Inductive linked : NodeRef -> nat -> NodeRef -> Prop :=
| linked_here (node : NodeRef) : linked node 0 node
| linked_child (node next target : NodeRef) (d : nat) :
    child (store node) = Some next ->
    linked next d target ->
    linked node (S d) target
| linked_sibling (node next target : NodeRef) (d : nat) :
    sibling (store node) = Some next ->
    linked next d target ->
    linked node (S d) target.

End Reach.

End TraversalReach.

(* ===================================================================== *)
(** * Vocabulary of the specification: attachment types *)
(* ===================================================================== *)

Module ParserSpec.

(** The name of each attachment type, as the [AttachmentType] union
    spells it. *)
Definition typeName (t : AttachmentType) : string :=
  match t with
  | image => "image"
  | video => "video"
  | audio => "audio"
  | document => "document"
  | sticker => "sticker"
  | contact => "contact"
  | location => "location"
  end.

End ParserSpec.

(* ===================================================================== *)
(** * Vocabulary of the specification: a batch of messages *)
(* ===================================================================== *)

Module MainWorldSpec.

(** The identifiers of the attachments of a batch, in order. *)
Definition attachmentIds (messages : list NormalizedMessage) : list string :=
  flat_map (fun m => List.map att_id (attachments m)) messages.

(** The element holds [fiber] for [prefix]: its first key that starts
    with the prefix exists, and the value under that key is the object
    [fiber]. *)
Definition holdsFiber (element : list (string * JsValue)) (prefix : string)
  (fiber : JsValue) : Prop :=
  exists fiberKey,
    TraversalKeys.findFiberPropertyKey (List.map fst element) prefix = Some fiberKey /\
    get (JsObject element) fiberKey = fiber /\
    isObject fiber = true.

(** The element holds no fiber for [prefix]: none of its keys starts
    with the prefix, or the value under the first that does is not an
    object. *)
Definition holdsNoFiber (element : list (string * JsValue)) (prefix : string) : Prop :=
  forall fiberKey,
    TraversalKeys.findFiberPropertyKey (List.map fst element) prefix = Some fiberKey ->
    isObject (get (JsObject element) fiberKey) = false.

End MainWorldSpec.

(* ===================================================================== *)
(** * Vocabulary of the specification: reading a fingerprint back *)
(* ===================================================================== *)

Module FingerprintSpec.

Local Open Scope Z_scope.

(** The value of a hexadecimal digit; other characters count for 0. *)
Definition digitValue (c : ascii) : Z :=
  let n := Z.of_nat (nat_of_ascii c) in
  if (48 <=? n) && (n <=? 57) then n - 48
  else if (97 <=? n) && (n <=? 102) then n - 87
  else 0.

(** The number a string of hexadecimal digits denotes, most significant
    digit first. *)
Fixpoint hexValue (acc : Z) (s : string) : Z :=
  match s with
  | EmptyString => acc
  | String c rest => hexValue (acc * 16 + digitValue c) rest
  end.

(** The integer a fingerprint denotes: an optional sign, then digits. *)
Definition fingerprintValue (s : string) : Z :=
  match s with
  | String "-" rest => - hexValue 0 rest
  | _ => hexValue 0 s
  end.

End FingerprintSpec.

(* ===================================================================== *)
(** * Vocabulary of the specification: the motion profile *)
(* ===================================================================== *)

Module ScrollerSpec.

Import Scroller.

Local Open Scope Q_scope.

(** The easing [performScroll] applies to the progress. *)
Definition ease (t : Q) : Q := cubicBezier t 0 (42 # 100) (58 # 100) 1.

End ScrollerSpec.

Module MainWorldFixtures.

(** One fiber, a "Message" component whose message has an image. *)
Definition messageFiber : FiberStore :=
  fun _ =>
    {| tag := 0%Z;
       type := TypeComponent {| name := "Message"; displayName := None |};
       key := None;
       memoizedProps := [("message", Fixtures.mediaMessageProps)];
       memoizedState := JsNull;
       return_ := None;
       child := None;
       sibling := None;
       index := 0%Z |}.

End MainWorldFixtures.

(* ===================================================================== *)
(** * Properties of the traversal engine *)
(* ===================================================================== *)

Module TraversalProofs.

Import Traversal TraversalSpec.

Section Upward.

Variable store : FiberStore.
Variable predicate : FiberPredicate.
Variable maxDepth : nat.

(** The body of the inner [traverse], as one equation. *)
Lemma traverseUp_unfold (current : option NodeRef) (depth : nat) :
  traverseUp store predicate maxDepth current depth =
  match current with
  | None =>
      err {| error_type := TRAVERSAL_FAILED;
             message := "Reached root of fiber tree without finding match" |}
  | Some node =>
      if gt_dec depth maxDepth then
        err {| error_type := TRAVERSAL_FAILED;
               message := ("Max depth " ++ String_ maxDepth
                           ++ " exceeded during upward traversal")%string |}
      else if predicate node then ok node
      else traverseUp store predicate maxDepth (return_ (store node)) (depth + 1)
  end.
Proof.
  destruct current as [node|]; simp traverseUp; [|reflexivity].
  destruct (gt_dec depth maxDepth); simpl; [reflexivity|].
  destruct (predicate node); reflexivity.
Qed.

Lemma noMatchBelow_step (node : NodeRef) (d : nat) :
  noMatchBelow store predicate (Some node) (S d) ->
  predicate node = false /\
  noMatchBelow store predicate (return_ (store node)) d.
Proof.
  intros H; split.
  - apply (H 0); [lia | reflexivity].
  - intros k b Hk Hb. apply (H (S k)); [lia | exact Hb].
Qed.

(** A first match [d] links up, within the budget, is returned. *)
Lemma traverseUp_found (d : nat) :
  forall current depth found,
    ancestorAt store current d = Some found ->
    predicate found = true ->
    noMatchBelow store predicate current d ->
    depth + d <= maxDepth ->
    traverseUp store predicate maxDepth current depth = ok found.
Proof.
  induction d as [|d IH]; intros current depth found Hanc Hp Hno Hle;
    rewrite traverseUp_unfold.
  - simpl in Hanc; subst current.
    destruct (gt_dec depth maxDepth); [lia|]. now rewrite Hp.
  - destruct current as [node|]; [|discriminate].
    simpl in Hanc. apply noMatchBelow_step in Hno as [Hnode Hrest].
    destruct (gt_dec depth maxDepth); [lia|]. rewrite Hnode.
    apply IH; auto. lia.
Qed.

(** A chain that is still alive [d] links up with nothing matching
    below [d], where [d] is past the budget, fails at the cutoff. *)
Lemma traverseUp_cutoff (d : nat) :
  forall current depth node,
    ancestorAt store current d = Some node ->
    noMatchBelow store predicate current d ->
    maxDepth < depth + d ->
    errorTypeOf (traverseUp store predicate maxDepth current depth)
    = Some TRAVERSAL_FAILED.
Proof.
  induction d as [|d IH]; intros current depth node Hanc Hno Hlt;
    rewrite traverseUp_unfold.
  - simpl in Hanc; subst current.
    destruct (gt_dec depth maxDepth); [reflexivity | lia].
  - destruct current as [n|]; [|discriminate].
    simpl in Hanc. apply noMatchBelow_step in Hno as [Hnode Hrest].
    destruct (gt_dec depth maxDepth); [reflexivity|]. rewrite Hnode.
    apply (IH _ _ node); auto. lia.
Qed.

(** A chain that ends [d] links up with nothing matching below [d]
    fails. *)
Lemma traverseUp_root (d : nat) :
  forall current depth,
    ancestorAt store current d = None ->
    noMatchBelow store predicate current d ->
    errorTypeOf (traverseUp store predicate maxDepth current depth)
    = Some TRAVERSAL_FAILED.
Proof.
  induction d as [|d IH]; intros current depth Hanc Hno;
    rewrite traverseUp_unfold.
  - simpl in Hanc; subst current. reflexivity.
  - destruct current as [n|]; [|reflexivity].
    simpl in Hanc. apply noMatchBelow_step in Hno as [Hnode Hrest].
    destruct (gt_dec depth maxDepth); [reflexivity|]. rewrite Hnode.
    apply IH; auto.
Qed.

End Upward.

(** C1.  [traverseUpwards] walks the chain of [return] links with the
    starting node at depth 0.  If the first node satisfying the predicate
    is at depth [d], it is returned when [d <= maxDepth] (a match exactly
    at [maxDepth] succeeds) and the call fails with TRAVERSAL_FAILED when
    [d > maxDepth] (a first match at [maxDepth + 1] fails); if the chain
    reaches a null parent before any match, the call fails with
    TRAVERSAL_FAILED; with [maxDepth = 0] the call succeeds exactly when
    the predicate holds for the starting node, and then returns it. *)
Theorem traverseUpwards_first_match_within_depth
  (store : FiberStore) (predicate : FiberPredicate)
  (fiberNode : NodeRef) (maxDepth : nat) :
  let result := traverseUpwards store predicate fiberNode maxDepth in
  (forall d found,
      ancestorAt store (Some fiberNode) d = Some found /\
      predicate found = true /\
      noMatchBelow store predicate (Some fiberNode) d ->
      (d <= maxDepth -> result = ok found) /\
      (maxDepth < d -> errorTypeOf result = Some TRAVERSAL_FAILED)) /\
  (forall d,
      ancestorAt store (Some fiberNode) d = None /\
      noMatchBelow store predicate (Some fiberNode) d ->
      errorTypeOf result = Some TRAVERSAL_FAILED) /\
  (maxDepth = 0 ->
   (predicate fiberNode = true /\ result = ok fiberNode) \/
   (predicate fiberNode = false /\ errorTypeOf result = Some TRAVERSAL_FAILED)).
Proof.
  cbv zeta. unfold traverseUpwards. repeat split.
  - intros Hle. destruct H as (Hanc & Hp & Hno).
    eapply traverseUp_found with (d := d); eauto.
  - intros Hlt. destruct H as (Hanc & Hp & Hno).
    eapply traverseUp_cutoff with (d := d); eauto.
  - intros d [Hanc Hno]. eapply traverseUp_root with (d := d); eauto.
  - intros ->. rewrite traverseUp_unfold.
    destruct (gt_dec 0 0); [lia|].
    destruct (predicate fiberNode) eqn:Hp; [left; auto | right; split; auto].
    rewrite traverseUp_unfold.
    destruct (return_ (store fiberNode)); [|reflexivity].
    destruct (gt_dec (0 + 1) 0); [reflexivity | lia].
Qed.

Section Lists.

Variable A : Type.
Variable f : A -> bool.

Lemma find_app (l1 l2 : list A) :
  find f (l1 ++ l2) =
  match find f l1 with
  | Some x => Some x
  | None => find f l2
  end.
Proof.
  induction l1 as [|x l1 IH]; simpl; [reflexivity|].
  destruct (f x); [reflexivity | exact IH].
Qed.

End Lists.

Section Downward.

Variable store : FiberStore.
Variable predicate : FiberPredicate.
Variable maxDepth : nat.

Lemma traverseDown_unfold (current : option NodeRef) (depth : nat) :
  traverseDown store predicate maxDepth current depth =
  match current with
  | None =>
      err {| error_type := TRAVERSAL_FAILED;
             message := "No matching node found in subtree" |}
  | Some node =>
      if gt_dec depth maxDepth then
        err {| error_type := TRAVERSAL_FAILED;
               message := ("Max depth " ++ String_ maxDepth
                           ++ " exceeded during downward traversal")%string |}
      else if predicate node then ok node
      else
        match traverseDown store predicate maxDepth (child (store node)) (depth + 1) with
        | ok found => ok found
        | err _ =>
            traverseDown store predicate maxDepth (sibling (store node)) (depth + 1)
        end
  end.
Proof.
  destruct current as [node|]; simp traverseDown; [|reflexivity].
  destruct (gt_dec depth maxDepth); simpl; [reflexivity|].
  destruct (predicate node); simpl; [reflexivity|].
  destruct (traverseDown store predicate maxDepth (child (store node)) (depth + 1));
    reflexivity.
Qed.

(** Below a node that is already too deep, every node is too deep. *)
Lemma withinDepth_none (t : Tree) :
  forall depth, maxDepth < depth ->
                filter (withinDepth maxDepth) (preorderLinks depth t) = [].
Proof.
  induction t as [|node c IHc s IHs]; intros depth Hlt; simpl; [reflexivity|].
  unfold withinDepth at 1; cbn [snd].
  destruct (Nat.leb_spec depth maxDepth); [lia|].
  rewrite filter_app, IHc, IHs by lia. reflexivity.
Qed.

Lemma traverseDown_preorder (t : Tree) :
  forall current depth,
    shape store current t ->
    match find predicate (map fst (filter (withinDepth maxDepth) (preorderLinks depth t))) with
    | Some found =>
        traverseDown store predicate maxDepth current depth = ok found
    | None =>
        errorTypeOf (traverseDown store predicate maxDepth current depth)
        = Some TRAVERSAL_FAILED
    end.
Proof.
  induction t as [|node c IHc s IHs]; intros current depth Hshape;
    rewrite traverseDown_unfold.
  - destruct current; [contradiction|]. reflexivity.
  - destruct current as [r|]; [|contradiction].
    destruct Hshape as (-> & Hc & Hs).
    destruct (gt_dec depth maxDepth) as [Hgt|Hle].
    + rewrite withinDepth_none by lia. reflexivity.
    + simpl. unfold withinDepth at 1; cbn [snd].
      destruct (Nat.leb_spec depth maxDepth); [|lia].
      simpl. destruct (predicate node); [reflexivity|].
      rewrite filter_app, map_app, find_app.
      specialize (IHc _ (S depth) Hc). specialize (IHs _ (S depth) Hs).
      rewrite Nat.add_1_r.
      destruct (find predicate
                  (map fst (filter (withinDepth maxDepth) (preorderLinks (S depth) c)))).
      * now rewrite IHc.
      * destruct (traverseDown store predicate maxDepth (child (store node)) (S depth));
          [discriminate | exact IHs].
Qed.

End Downward.

(** C2 (as amended).  On a tree, [traverseDownwards] returns the first
    node, in depth-first pre-order (the node, then its first-child
    subtree, then its next-sibling subtree), that satisfies the predicate
    among the nodes at most [maxDepth] links away from the starting
    node, and fails with TRAVERSAL_FAILED when none of them does.  A link
    is a [child] link or a [sibling] link, as the code passes
    [depth + 1] to both recursive calls: the k-th child of a node is k
    links below it.  The nodes are those the walk can reach from the
    starting node, its own siblings and what is below them included. *)
Theorem traverseDownwards_first_preorder_match
  (store : FiberStore) (predicate : FiberPredicate)
  (fiberNode : NodeRef) (maxDepth : nat) (t : Tree) :
  shape store (Some fiberNode) t ->
  match find predicate (linkBoundedPreorder maxDepth t) with
  | Some found =>
      traverseDownwards store predicate fiberNode maxDepth = ok found
  | None =>
      errorTypeOf (traverseDownwards store predicate fiberNode maxDepth)
      = Some TRAVERSAL_FAILED
  end.
Proof.
  intros Hshape. unfold traverseDownwards, linkBoundedPreorder.
  exact (@traverseDown_preorder store predicate maxDepth t (Some fiberNode) 0 Hshape).
Qed.

Section Collecting.

Variable store : FiberStore.
Variable predicate : FiberPredicate.
Variable maxNodes : nat.

Lemma testedUntil_nil (n : nat) : testedUntil predicate n [] = [].
Proof. destruct n; reflexivity. Qed.

Lemma testedUntil_0 (l : list NodeRef) : testedUntil predicate 0 l = [].
Proof. destruct l; reflexivity. Qed.

Lemma testedUntil_app (l1 : list NodeRef) :
  forall n l2,
    testedUntil predicate n (l1 ++ l2) =
    testedUntil predicate n l1
    ++ testedUntil predicate (n - List.length (filter predicate l1)) l2.
Proof.
  induction l1 as [|x l1 IH]; intros n l2.
  - rewrite testedUntil_nil. simpl. rewrite Nat.sub_0_r. reflexivity.
  - destruct n as [|n]; [simpl; now rewrite !testedUntil_0|].
    simpl. rewrite IH. destruct (predicate x); reflexivity.
Qed.

(** The tested nodes are a prefix of the walk order. *)
Lemma testedUntil_prefix (l : list NodeRef) :
  forall n, exists rest, l = testedUntil predicate n l ++ rest.
Proof.
  induction l as [|x l IH]; intros n.
  - exists []. now rewrite testedUntil_nil.
  - destruct n as [|n]; [now exists (x :: l)|].
    simpl. destruct (IH (if predicate x then n else S n)) as [rest Hrest].
    exists rest. now rewrite <- Hrest.
Qed.

(** The matches among the tested nodes are the collected ones. *)
Lemma testedUntil_filter (l : list NodeRef) :
  forall n, filter predicate (testedUntil predicate n l) =
            firstn n (filter predicate l).
Proof.
  induction l as [|x l IH]; intros n.
  - rewrite testedUntil_nil. simpl. now rewrite firstn_nil.
  - destruct n as [|n]; [reflexivity|].
    simpl. destruct (predicate x) eqn:Hx; simpl; now rewrite IH.
Qed.

(** When the bound is reached, the last tested node is a match: nothing
    after the last collected node is handed to the predicate. *)
Lemma testedUntil_stops_at_match (l : list NodeRef) :
  forall n, 0 < n -> n <= List.length (filter predicate l) ->
            exists before final,
              testedUntil predicate n l = before ++ [final] /\
              predicate final = true.
Proof.
  induction l as [|x l IH]; intros n Hpos Hlen; [simpl in Hlen; lia|].
  destruct n as [|n]; [lia|]. simpl in *.
  destruct (predicate x) eqn:Hx.
  - destruct n as [|n].
    + exists [], x. rewrite testedUntil_0. split; [reflexivity | exact Hx].
    + simpl in Hlen.
      destruct (IH (S n)) as (before & final & Heq & Hfinal); [lia | lia |].
      exists (x :: before), final. rewrite Heq. auto.
  - destruct (IH (S n)) as (before & final & Heq & Hfinal); [lia | lia |].
    exists (x :: before), final. rewrite Heq. auto.
Qed.

Lemma collect_tree (t : Tree) :
  forall current fuel w,
    shape store current t ->
    height t <= fuel ->
    exists w',
      collect store predicate maxNodes fuel current w = Some w' /\
      results w' =
        results w
        ++ firstn (maxNodes - List.length (results w))
                  (filter predicate (preorder t)) /\
      tested w' =
        tested w
        ++ testedUntil predicate (maxNodes - List.length (results w)) (preorder t).
Proof.
  induction t as [|node c IHc s IHs]; intros current fuel w Hshape Hfuel.
  - destruct current; [contradiction|].
    exists w. cbn [preorder filter].
    rewrite firstn_nil, testedUntil_nil, !app_nil_r.
    destruct fuel; simpl; auto.
  - destruct current as [r|]; [|contradiction].
    destruct Hshape as (-> & Hc & Hs).
    destruct fuel as [|fuel]; [simpl in Hfuel; lia|].
    simpl in Hfuel. simpl collect.
    destruct (Nat.leb_spec maxNodes (List.length (results w))) as [Hfull|Hroom].
    + exists w. replace (maxNodes - List.length (results w)) with 0 by lia.
      rewrite testedUntil_0. simpl. rewrite !app_nil_r. auto.
    + destruct (IHc _ fuel (test predicate node w) Hc) as (w1 & E1 & R1 & T1); [lia|].
      destruct (IHs _ fuel w1 Hs) as (w2 & E2 & R2 & T2); [lia|].
      exists w2. rewrite E1, E2. split; [reflexivity|].
      rewrite R2, T2, R1, T1. clear E1 E2 R1 R2 T1 T2 IHc IHs.
      remember (maxNodes - List.length (results w)) as room eqn:Hroom'.
      destruct room as [|room]; [lia|].
      unfold test; cbn [results tested preorder filter testedUntil].
      destruct (predicate node) eqn:Hnode;
        rewrite ?length_app, length_firstn; cbn [List.length];
        rewrite filter_app, testedUntil_app.
      * rewrite firstn_cons, firstn_app.
        replace (maxNodes - (List.length (results w) + 1)) with room by lia.
        replace (maxNodes
                 - (List.length (results w) + 1
                    + Nat.min room (List.length (filter predicate (preorder c)))))
          with (room - List.length (filter predicate (preorder c))) by lia.
        rewrite <- !app_assoc. auto.
      * rewrite <- Hroom', firstn_app.
        replace (maxNodes
                 - (List.length (results w)
                    + Nat.min (S room) (List.length (filter predicate (preorder c)))))
          with (S room - List.length (filter predicate (preorder c))) by lia.
        rewrite <- !app_assoc. auto.
Qed.

End Collecting.

(** C3.  On a finite tree, [collectNodes] with [maxNodes = N] returns
    the matching nodes in depth-first pre-order, cut after the first [N];
    so the list has length at most [N], and it is shorter than [N] only
    when it holds every matching node of the tree (fewer than [N]).  The
    nodes handed to the predicate are a prefix of the pre-order whose
    matches are exactly the returned ones; when [N] matches have been
    collected that prefix ends at the [N]-th match (for [N = 0] it is
    empty), so no further node is tested. *)
Theorem collectNodes_bounded_preorder
  (store : FiberStore) (predicate : FiberPredicate)
  (fiberNode : NodeRef) (N : nat) (t : Tree) (fuel : nat) :
  shape store (Some fiberNode) t ->
  height t <= fuel ->
  exists w,
    collectWalk store predicate N fuel fiberNode = Some w /\
    collectNodes store predicate N fuel fiberNode = Some (results w) /\
    results w = firstn N (filter predicate (preorder t)) /\
    List.length (results w) <= N /\
    (List.length (results w) < N ->
     results w = filter predicate (preorder t) /\
     List.length (filter predicate (preorder t)) < N) /\
    (exists untested, preorder t = tested w ++ untested) /\
    filter predicate (tested w) = results w /\
    (List.length (results w) = N ->
     (N = 0 /\ tested w = []) \/
     (exists before final,
         tested w = before ++ [final] /\ predicate final = true)).
Proof.
  intros Hshape Hfuel.
  destruct (@collect_tree store predicate N t (Some fiberNode) fuel
              {| results := []; tested := [] |} Hshape Hfuel)
    as (w & E & R & T).
  simpl in R, T. rewrite Nat.sub_0_r in R, T.
  exists w. unfold collectNodes, collectWalk. rewrite E.
  split; [reflexivity|]. split; [reflexivity|]. split; [exact R|].
  assert (Hlen : List.length (results w)
                 = Nat.min N (List.length (filter predicate (preorder t)))).
  { rewrite R. apply length_firstn. }
  split; [lia|]. split.
  { intros Hshort. split; [|lia].
    rewrite R. apply firstn_all2. lia. }
  split; [rewrite T; apply testedUntil_prefix|].
  split; [rewrite T, R; apply testedUntil_filter|].
  intros Hfull. destruct N as [|N];
    [left; split; [reflexivity | rewrite T; apply testedUntil_0]|].
  right. rewrite T. apply testedUntil_stops_at_match; lia.
Qed.

End TraversalProofs.

Module TraversalExamples.

Import Traversal TraversalSpec Fixtures TraversalProofs.

Example up_match_at_maxDepth :
  traverseUpwards family (Nat.eqb 0) 4 2 = ok 0.
Proof. reflexivity. Qed.

Example up_match_one_past_maxDepth :
  errorTypeOf (traverseUpwards family (Nat.eqb 0) 4 1) = Some TRAVERSAL_FAILED.
Proof. reflexivity. Qed.

Example up_loop_is_cut :
  traverseUpwards loop (fun _ => false) 0 5 =
  err {| error_type := TRAVERSAL_FAILED;
         message := "Max depth 5 exceeded during upward traversal" |}.
Proof. reflexivity. Qed.

(** Node 3, the child of 1, comes before node 2, the sibling of 1. *)
Example down_child_before_sibling :
  traverseDownwards family (Nat.leb 2) 0 100 = ok 3.
Proof. reflexivity. Qed.

(** Node 2 is one [child] link and one [sibling] link away from the
    root: it is found with [maxDepth = 2] and not with [maxDepth = 1]. *)
Example down_sibling_link_counts :
  traverseDownwards family (Nat.eqb 2) 0 2 = ok 2 /\
  traverseDownwards family (Nat.eqb 2) 0 1 =
  err {| error_type := TRAVERSAL_FAILED;
         message := "No matching node found in subtree" |}.
Proof. split; reflexivity. Qed.

Example collect_all :
  collectNodes family (Nat.leb 1) 1000 4 0 = Some [1; 3; 2; 4].
Proof. reflexivity. Qed.

Example collect_two_tests_three :
  collectWalk family (Nat.leb 1) 2 4 0
  = Some {| results := [1; 3]; tested := [0; 1; 3] |}.
Proof. reflexivity. Qed.

Example collect_none :
  collectWalk family (Nat.leb 1) 0 4 0 = Some {| results := []; tested := [] |}.
Proof. reflexivity. Qed.

(** On a cycle, the walk does not end unless the bound is reached. *)
Example collect_loop_runs_on :
  collectNodes
    (fun _ => createMockFiberNode None (Some 0) None) (fun _ => false) 3 50 0
  = None.
Proof. reflexivity. Qed.

Lemma traverseUpwards_first_match_within_depth_witness :
  (ancestorAt family (Some 4) 2 = Some 0 /\
   Nat.eqb 0 0 = true /\
   noMatchBelow family (Nat.eqb 0) (Some 4) 2) /\
  traverseUpwards family (Nat.eqb 0) 4 2 = ok 0.
Proof.
  assert (Hfirst : ancestorAt family (Some 4) 2 = Some 0 /\
                   Nat.eqb 0 0 = true /\
                   noMatchBelow family (Nat.eqb 0) (Some 4) 2).
  { split; [reflexivity|]. split; [reflexivity|].
    intros k node Hk. destruct k as [|[|k]]; simpl; intros E;
      [injection E as <-; reflexivity | injection E as <-; reflexivity | lia]. }
  split; [exact Hfirst|].
  destruct (traverseUpwards_first_match_within_depth family (Nat.eqb 0) 4 2)
    as (Hmatch & _).
  destruct (Hmatch 2 0 Hfirst) as (Hok & _).
  exact (Hok (le_n 2)).
Defined.

(** C2, as stated, fails.  Node 2 is a child of the root 0: it is in
    the subtree of the root at depth 1, and it is the first node of that
    subtree, cut at depth 1, that satisfies the predicate.  The walk
    reaches it through the [child] link to node 1 and the [sibling] link
    of node 1, with [depth = 2], and with [maxDepth = 1] it fails. *)
Lemma traverseDownwards_misses_second_child :
  shape family (Some 0) familyTree /\
  specBoundedPreorder 1 familyTree = [0; 1; 2] /\
  find (Nat.eqb 2) (specBoundedPreorder 1 familyTree) = Some 2 /\
  traverseDownwards family (Nat.eqb 2) 0 1 =
  err {| error_type := TRAVERSAL_FAILED;
         message := "No matching node found in subtree" |}.
Proof.
  split; [simpl; repeat split|]. split; [reflexivity|]. split; reflexivity.
Qed.

(** The starting node's siblings are searched too: from node 1, node 4
    is below the sibling 2 of node 1, outside the subtree of node 1, and
    it is returned. *)
Example down_searches_siblings_of_start :
  shape family (Some 1) (Node 1 (Node 3 Leaf Leaf) (Node 2 (Node 4 Leaf Leaf) Leaf)) /\
  specBoundedPreorder 5 (Node 1 (Node 3 Leaf Leaf) (Node 2 (Node 4 Leaf Leaf) Leaf))
  = [1; 3] /\
  traverseDownwards family (Nat.eqb 4) 1 5 = ok 4.
Proof.
  split; [simpl; repeat split|]. split; reflexivity.
Qed.

Lemma traverseDownwards_first_preorder_match_witness :
  shape family (Some 0) familyTree /\
  traverseDownwards family (Nat.leb 2) 0 2 = ok 3.
Proof.
  assert (Hshape : shape family (Some 0) familyTree) by (simpl; repeat split).
  split; [exact Hshape|].
  exact (traverseDownwards_first_preorder_match family (Nat.leb 2) 0 2 familyTree Hshape).
Defined.

Lemma collectNodes_bounded_preorder_witness :
  shape family (Some 0) familyTree /\
  height familyTree <= 4 /\
  collectNodes family (Nat.leb 1) 2 4 0 = Some [1; 3].
Proof.
  assert (Hshape : shape family (Some 0) familyTree) by (simpl; repeat split).
  assert (Hfuel : height familyTree <= 4) by (simpl; lia).
  split; [exact Hshape|]. split; [exact Hfuel|].
  destruct (collectNodes_bounded_preorder family (Nat.leb 1) 0 2 familyTree Hshape Hfuel)
    as (w & _ & Hnodes & Hresults & _).
  rewrite Hnodes, Hresults. reflexivity.
Defined.

End TraversalExamples.

(* ===================================================================== *)
(** * Properties of the record extraction pipeline *)
(* ===================================================================== *)

Module MessageParserProofs.

Import MessageParser TraversalSpec.

(** What a successful [parseMessage] has checked, and what it returns. *)
Lemma parseMessage_ok_inv (uuid : string) (props : JsValue) (m : NormalizedMessage) :
  parseMessage uuid props = ok m ->
  isObject props = true /\
  exists idValue t,
    get props "id" = JsString idValue /\
    get props "t" = JsNumber t /\
    t <> NaN /\
    id m = idValue /\
    timestamp m = t /\
    attachments m = parseAttachments uuid (get props "mediaData") /\
    sender m =
      {| sender_id := orElse (parseOptionalString (get props "from")) "unknown";
         sender_name := orElse (parseOptionalString (get props "from")) "Unknown";
         pushName := None;
         isContact := false |}.
Proof.
  unfold parseMessage. intros H.
  destruct (isObject props); simpl in H; [|discriminate].
  split; [reflexivity|].
  destruct (isNullish (get props "id")); [discriminate|].
  destruct (isNullish (get props "t")); [discriminate|].
  destruct (get props "id") as [| | | | idValue | | | |]; simpl in H; try discriminate.
  destruct (get props "t") as [| | |t| | | | |]; simpl in H; try discriminate.
  destruct t as [|s|q]; simpl in H; try discriminate;
    injection H as <-; eexists _, _; simpl; repeat split; discriminate.
Qed.

(** What [parseMessage] returns on an object with a string [id] and a
    number [t] that is not NaN. *)
Lemma parseMessage_valid (uuid : string) (props : JsValue) (idValue : string) (t : JsNum) :
  isObject props = true ->
  get props "id" = JsString idValue ->
  get props "t" = JsNumber t ->
  t <> NaN ->
  exists m,
    parseMessage uuid props = ok m /\
    id m = idValue /\
    timestamp m = t /\
    attachments m = parseAttachments uuid (get props "mediaData").
Proof.
  intros Hobj Hid Ht Hnan. unfold parseMessage.
  rewrite Hobj, Hid, Ht. simpl.
  destruct t as [|s|q]; [contradiction| |]; simpl;
    eexists; repeat split; reflexivity.
Qed.

(** C4 (as amended).  [parseSender] fails with INVALID_PROPS when
    [props] is not an object; fails with MISSING_REQUIRED_FIELD when
    the identifier is null or undefined; fails with INVALID_PROPS when
    the identifier is present but is not a string; and otherwise succeeds
    with the identifier, the name (the identifier when no string name is
    given), the optional push-name and the contact flag coerced by
    [parseBoolean]. *)
Theorem parseSender_outcomes (props : JsValue) :
  (isObject props = false ->
   parseSender props =
   err {| error_type := INVALID_PROPS;
          message := "Sender props must be an object" |}) /\
  (isObject props = true ->
   isNullish (get props "id") = true ->
   parseSender props =
   err {| error_type := MISSING_REQUIRED_FIELD;
          message := "Sender ID is required" |}) /\
  (isObject props = true ->
   isNullish (get props "id") = false ->
   (forall s, get props "id" <> JsString s) ->
   errorTypeOf (parseSender props) = Some INVALID_PROPS) /\
  (isObject props = true ->
   forall idValue,
     get props "id" = JsString idValue ->
     parseSender props =
     ok {| sender_id := idValue;
           sender_name :=
             match get props "name" with
             | JsString n => n
             | _ => idValue
             end;
           pushName :=
             match get props "pushname" with
             | JsString p => Some p
             | _ => None
             end;
           isContact := parseBoolean (get props "isContact") |}).
Proof.
  unfold parseSender. repeat split.
  - intros ->. reflexivity.
  - intros -> ->. reflexivity.
  - intros -> -> Hid.
    destruct (get props "id") as [| | | | s | | | |]; simpl; try reflexivity.
    now destruct (Hid s).
  - intros -> idValue ->. simpl. f_equal.
    unfold parseOptionalString, orElse.
    destruct (get props "name"), (get props "pushname"); reflexivity.
Qed.

(** C4, as stated, fails: an object whose identifier is present but is
    the number 42 is neither a non-object nor without identifier, and
    [parseSender] does not succeed on it. *)
Lemma parseSender_rejects_number_id :
  let props := JsObject [("id", JsNumber (Finite 42))] in
  isObject props = true /\
  isNullish (get props "id") = false /\
  parseSender props =
  err {| error_type := INVALID_PROPS;
         message := "Expected string for sender.id, got number" |}.
Proof. repeat split. Qed.

(** C5.  [parseMessage({})] fails with MISSING_REQUIRED_FIELD,
    [parseMessage({id: "x"})] fails with MISSING_REQUIRED_FIELD for the
    timestamp, and [parseMessage(null)] fails with INVALID_PROPS.  The
    identifier and the timestamp are checked one after the other, each
    with its own error, so the two errors differ (in their message): on
    any object, a missing identifier gives the first and a present
    identifier with a missing timestamp gives the second. *)
Theorem parseMessage_required_fields (uuid : string) :
  let missingId :=
    {| error_type := MISSING_REQUIRED_FIELD;
       message := "Message ID is required" |} in
  let missingTimestamp :=
    {| error_type := MISSING_REQUIRED_FIELD;
       message := "Message timestamp is required" |} in
  parseMessage uuid (JsObject []) = err missingId /\
  parseMessage uuid (JsObject [("id", JsString "x")]) = err missingTimestamp /\
  parseMessage uuid JsNull =
    err {| error_type := INVALID_PROPS;
           message := "Message props must be an object" |} /\
  missingId <> missingTimestamp /\
  (forall props,
      isObject props = true ->
      (isNullish (get props "id") = true ->
       parseMessage uuid props = err missingId) /\
      (isNullish (get props "id") = false ->
       isNullish (get props "t") = true ->
       parseMessage uuid props = err missingTimestamp)).
Proof.
  cbv zeta. repeat split; try discriminate.
  - intros Hid. unfold parseMessage. now rewrite H, Hid.
  - intros Hid Ht. unfold parseMessage. now rewrite H, Hid, Ht.
Qed.

(** C6.  On an object with a string identifier and a timestamp that is
    a number other than NaN, [parseMessage] succeeds with at most one
    attachment: none when the media-data field is null or undefined;
    exactly the parsed attachment when [parseAttachment] succeeds on the
    field; none, the message still succeeding, when [parseAttachment]
    fails on it. *)
Theorem parseMessage_at_most_one_attachment
  (uuid : string) (props : JsValue) (idValue : string) (t : JsNum) :
  isObject props = true ->
  get props "id" = JsString idValue ->
  get props "t" = JsNumber t ->
  t <> NaN ->
  exists m,
    parseMessage uuid props = ok m /\
    id m = idValue /\
    timestamp m = t /\
    List.length (attachments m) <= 1 /\
    (isNullish (get props "mediaData") = true -> attachments m = []) /\
    (isNullish (get props "mediaData") = false ->
     match parseAttachment uuid (get props "mediaData") with
     | ok attachment => attachments m = [attachment]
     | err _ => attachments m = []
     end).
Proof.
  intros Hobj Hid Ht Hnan.
  destruct (parseMessage_valid uuid props Hobj Hid Ht Hnan) as (m & Hm & Hi & Htime & Hatt).
  exists m. repeat split; auto; rewrite Hatt; unfold parseAttachments.
  - destruct (isNullish (get props "mediaData")); simpl; [lia|].
    destruct (parseAttachment uuid (get props "mediaData")); simpl; lia.
  - intros ->. reflexivity.
  - intros ->. simpl.
    destruct (parseAttachment uuid (get props "mediaData")); reflexivity.
Qed.

(** C10.  Whenever [parseMessage] succeeds, the sender it embeds has a
    null push-name and a false contact flag; when the [from] field is
    not a string (absent included), the sender's identifier is "unknown"
    and its name is "Unknown", which differ; when it is a string, both are
    that string.  [parseSender] would have kept the push-name and the
    contact flag of its input, so the sender is not built by it. *)
Theorem parseMessage_inline_sender
  (uuid : string) (props : JsValue) (m : NormalizedMessage) :
  parseMessage uuid props = ok m ->
  pushName (sender m) = None /\
  isContact (sender m) = false /\
  ((forall s, get props "from" <> JsString s) ->
   sender_id (sender m) = "unknown" /\
   sender_name (sender m) = "Unknown" /\
   sender_name (sender m) <> sender_id (sender m)) /\
  (forall s, get props "from" = JsString s ->
             sender_id (sender m) = s /\ sender_name (sender m) = s).
Proof.
  intros H. apply parseMessage_ok_inv in H as (_ & idValue & t & _ & _ & _ & _ & _ & _ & Hs).
  rewrite Hs. simpl. repeat split.
  - destruct (get props "from") as [| | | | s | | | |]; try reflexivity.
    now destruct (H s).
  - destruct (get props "from") as [| | | | s | | | |]; try reflexivity.
    now destruct (H s).
  - destruct (get props "from") as [| | | | s | | | |]; simpl; try discriminate.
    now destruct (H s).
  - now rewrite H.
  - now rewrite H.
Qed.

Lemma parseMessage_at_most_one_attachment_witness :
  isObject Fixtures.mediaMessageProps = true /\
  get Fixtures.mediaMessageProps "id" = JsString "m1" /\
  get Fixtures.mediaMessageProps "t" = JsNumber (Finite 1700000000) /\
  Finite 1700000000 <> NaN /\
  exists m,
    parseMessage "uuid-1" Fixtures.mediaMessageProps = ok m /\
    List.length (attachments m) = 1.
Proof.
  assert (Hnan : Finite 1700000000 <> NaN) by discriminate.
  repeat split; [exact Hnan|].
  destruct (parseMessage_at_most_one_attachment "uuid-1" Fixtures.mediaMessageProps
              eq_refl eq_refl eq_refl Hnan)
    as (m & Hm & _ & _ & _ & _ & Hmedia).
  exists m. split; [exact Hm|].
  specialize (Hmedia eq_refl). simpl in Hmedia. now rewrite Hmedia.
Defined.

Lemma parseMessage_inline_sender_witness :
  parseMessage "uuid-1" Fixtures.bareMessageProps = ok Fixtures.bareMessage /\
  sender_id (sender Fixtures.bareMessage) = "unknown" /\
  sender_name (sender Fixtures.bareMessage) = "Unknown".
Proof.
  assert (Hok : parseMessage "uuid-1" Fixtures.bareMessageProps = ok Fixtures.bareMessage)
    by reflexivity.
  split; [exact Hok|].
  destruct (parseMessage_inline_sender "uuid-1" Fixtures.bareMessageProps Hok)
    as (_ & _ & Hunknown & _).
  destruct Hunknown as (Hid & Hname & _); [intros s; discriminate|].
  split; assumption.
Defined.

End MessageParserProofs.

(* ===================================================================== *)
(** * Properties of the rate limiter *)
(* ===================================================================== *)

Module RateLimiterProofs.

Import RateLimiter RateLimiterSpec.

Local Open Scope Q_scope.

Section Limiter.

Variable config : RateLimiterConfig.

Lemma checkMandatoryPause_tokens (now random : Q) (state : RateLimiterState) :
  tokens (checkMandatoryPause config now random state) = tokens state /\
  lastRefill (checkMandatoryPause config now random state) = lastRefill state.
Proof.
  unfold checkMandatoryPause.
  destruct (Qle_bool _ _); split; reflexivity.
Qed.

Lemma isPaused_tokens (now : Q) (state : RateLimiterState) :
  tokens (snd (isPaused now state)) = tokens state /\
  lastRefill (snd (isPaused now state)) = lastRefill state /\
  lastPauseCheck (snd (isPaused now state)) = lastPauseCheck state.
Proof.
  unfold isPaused. destruct (pausedUntil state) as [u|]; [|auto].
  destruct (Qle_bool u now); auto.
Qed.

(** The three ways out of [tryConsume]. *)
Lemma tryConsume_cases (nowCheck random nowPaused nowRefill count : Q)
  (state : RateLimiterState) :
  let result := tryConsume config nowCheck random nowPaused nowRefill count state in
  (fst result = false /\
   fst (isPaused nowPaused (checkMandatoryPause config nowCheck random state)) = true /\
   tokens (snd result) = tokens state /\
   lastRefill (snd result) = lastRefill state) \/
  (fst result = false /\
   refilled config nowRefill state < count /\
   tokens (snd result) = refilled config nowRefill state /\
   lastRefill (snd result) = nowRefill) \/
  (fst result = true /\
   count <= refilled config nowRefill state /\
   tokens (snd result) = refilled config nowRefill state - count /\
   lastRefill (snd result) = nowRefill).
Proof.
  cbv zeta. unfold tryConsume, refilled.
  pose proof (checkMandatoryPause_tokens nowCheck random state) as [Ht1 Hr1].
  pose proof (isPaused_tokens nowPaused (checkMandatoryPause config nowCheck random state))
    as (Ht2 & Hr2 & _).
  destruct (isPaused nowPaused (checkMandatoryPause config nowCheck random state))
    as [paused state2].
  simpl in Ht2, Hr2. rewrite Ht1 in Ht2. rewrite Hr1 in Hr2. destruct paused.
  - left. simpl. repeat split; congruence.
  - right. unfold refillTokens. cbn [tokens lastRefill].
    rewrite Ht2, Hr2.
    destruct (Qle_bool count _) eqn:Hle; cbn [negb fst snd tokens lastRefill].
    + right. apply Qle_bool_iff in Hle. repeat split; auto.
    + left. repeat split; auto.
      apply Qnot_le_lt. intros Hc. apply Qle_bool_iff in Hc. congruence.
Qed.

Lemma lastPauseCheck_after (nowCheck random nowPaused nowRefill count : Q)
  (state : RateLimiterState) :
  lastPauseCheck
    (snd (tryConsume config nowCheck random nowPaused nowRefill count state))
  = lastPauseCheck (checkMandatoryPause config nowCheck random state).
Proof.
  unfold tryConsume.
  pose proof (isPaused_tokens nowPaused (checkMandatoryPause config nowCheck random state))
    as (_ & _ & Hl).
  destruct (isPaused nowPaused (checkMandatoryPause config nowCheck random state))
    as [paused state2].
  simpl in Hl. destruct paused; simpl; [exact Hl|].
  destruct (Qle_bool count _); simpl; exact Hl.
Qed.

(** Refilling never takes the bucket above [maxTokens]. *)
Lemma refillTokens_capped (now : Q) (state : RateLimiterState) :
  tokens (refillTokens config now state) <= maxTokens config.
Proof. unfold refillTokens; simpl. apply Q.le_min_l. Qed.

End Limiter.

(** C7.  With [maxTokens = 10] and [refillRate = 0.01] tokens per
    millisecond: (a) after a successful [tryConsume(10)] on a fresh
    limiter, [getTokens()] 1000 ms after that call's refill returns 10;
    (b) [tryConsume(11)] on a full bucket returns false and leaves 10
    tokens.  For every configuration: (c) a [tryConsume] that is refused
    for lack of tokens leaves exactly the refilled amount, nothing being
    debited, which is no less than the tokens before the call when the
    clock has not gone back; and (d) the refill of [getTokens] never goes
    above [maxTokens].  The clock is taken not to run backwards between a
    refill and the next. *)
Theorem tryConsume_all_or_nothing_and_capped_refill :
  (forall config : RateLimiterConfig,
      maxTokens config == 10 ->
      refillRate config == 1 # 100 ->
      (forall created1 created2 nowCheck random nowPaused nowRefill later state1,
          created1 <= nowRefill ->
          tryConsume config nowCheck random nowPaused nowRefill 10
                     (createRateLimiter config created1 created2)
          = (true, state1) ->
          later == nowRefill + 1000 ->
          fst (getTokens config later state1) = 10%Z) /\
      (forall state nowCheck random nowPaused nowRefill,
          tokens state == maxTokens config ->
          lastRefill state <= nowRefill ->
          let result :=
            tryConsume config nowCheck random nowPaused nowRefill 11 state in
          fst result = false /\ tokens (snd result) == 10)) /\
  (forall (config : RateLimiterConfig)
          nowCheck random nowPaused nowRefill count state,
      let result :=
        tryConsume config nowCheck random nowPaused nowRefill count state in
      fst result = false ->
      fst (isPaused nowPaused (checkMandatoryPause config nowCheck random state))
      = false ->
      tokens (snd result) = refilled config nowRefill state /\
      refilled config nowRefill state < count /\
      (0 <= refillRate config ->
       lastRefill state <= nowRefill ->
       tokens state <= maxTokens config ->
       tokens state <= tokens (snd result))) /\
  (forall (config : RateLimiterConfig) now state,
      tokens (snd (getTokens config now state)) <= maxTokens config /\
      (inject_Z (fst (getTokens config now state)) <= maxTokens config)).
Proof.
  split; [|split].
  - intros config Hmax Hrate. split.
    + intros created1 created2 nowCheck random nowPaused nowRefill later state1
             Hmono Hconsume Hlater.
      pose proof (tryConsume_cases config nowCheck random nowPaused nowRefill 10
                    (createRateLimiter config created1 created2)) as Hcases.
      cbv zeta in Hcases. rewrite Hconsume in Hcases. simpl in Hcases.
      destruct Hcases as [(Hf & _)|[(Hf & _)|(_ & Hle & Htok & Hlast)]];
        try discriminate.
      unfold getTokens, refillTokens; simpl. rewrite Htok, Hlast.
      unfold refilled in *; simpl in *.
      assert (Hadd : (later - nowRefill) * refillRate config == 10).
      { rewrite Hrate, Hlater. field. }
      assert (Hgain : 0 <= (nowRefill - created1) * refillRate config).
      { rewrite Hrate. lra. }
      set (gain := (nowRefill - created1) * refillRate config) in *.
      set (add := (later - nowRefill) * refillRate config) in *.
      destruct (Q.min_spec (maxTokens config) (maxTokens config + gain))
        as [[I1 E1]|[I1 E1]];
        destruct (Q.min_spec (maxTokens config)
                    (Qmin (maxTokens config) (maxTokens config + gain) - 10 + add))
        as [[I2 E2]|[I2 E2]];
        rewrite (Qfloor_comp _ 10); try reflexivity; lra.
    + intros state nowCheck random nowPaused nowRefill Hfull Hmono.
      pose proof (tryConsume_cases config nowCheck random nowPaused nowRefill 11 state)
        as Hcases.
      cbv zeta in *.
      assert (Hgain : 0 <= (nowRefill - lastRefill state) * refillRate config).
      { rewrite Hrate. lra. }
      unfold refilled in Hcases.
      set (gain := (nowRefill - lastRefill state) * refillRate config) in *.
      destruct (Q.min_spec (maxTokens config) (tokens state + gain))
        as [[I1 E1]|[I1 E1]];
        destruct Hcases as [(Hf & _ & Htok & _)|[(Hf & _ & Htok & _)|(_ & Hle & _)]];
        try (split; [exact Hf|]; rewrite Htok); lra.
  - intros config nowCheck random nowPaused nowRefill count state result Hfalse Hrun.
    pose proof (tryConsume_cases config nowCheck random nowPaused nowRefill count state)
      as Hcases.
    cbv zeta in Hcases. fold result in Hcases.
    destruct Hcases as [(_ & Hp & _)|[(_ & Hlt & Htok & _)|(Ht & _)]];
      [congruence | | congruence].
    split; [exact Htok|]. split; [exact Hlt|].
    intros Hrate Hmono Hcap. rewrite Htok. unfold refilled.
    assert (Hgain : 0 <= (nowRefill - lastRefill state) * refillRate config).
    { apply Qmult_le_0_compat; lra. }
    set (gain := (nowRefill - lastRefill state) * refillRate config) in *.
    destruct (Q.min_spec (maxTokens config) (tokens state + gain))
      as [[I1 E1]|[I1 E1]]; lra.
  - intros config now state. unfold getTokens; cbn [fst snd].
    pose proof (refillTokens_capped config now state) as Hcap.
    split; [exact Hcap|].
    eapply Qle_trans; [apply Qfloor_le | exact Hcap].
Qed.

(** C8.  When [tryConsume] is called and the time since the last pause
    check has reached [pauseInterval], [checkMandatoryPause] sets
    [pausedUntil] to the current time plus a duration
    [min + random * (max - min)], which lies in [[min, max]] for
    [0 <= random < 1], and sets [lastPauseCheck] to the current time.
    Neither depends on the state's former [pausedUntil], so a window that
    is still active is overwritten, and [lastPauseCheck] keeps the new
    value whatever [tryConsume] returns.  The window is still armed when
    [tryConsume] returns unless [isPaused] finds it over already, the
    clock having reached the new [pausedUntil]; while it is armed the
    call is refused. *)
Theorem tryConsume_arms_mandatory_pause
  (config : RateLimiterConfig)
  (nowCheck random nowPaused nowRefill count : Q) (state : RateLimiterState) :
  pauseInterval config <= nowCheck - lastPauseCheck state ->
  let duration :=
    min (pauseDuration config)
    + random * (max (pauseDuration config) - min (pauseDuration config)) in
  let armed := checkMandatoryPause config nowCheck random state in
  let result := tryConsume config nowCheck random nowPaused nowRefill count state in
  pausedUntil armed = Some (nowCheck + duration) /\
  lastPauseCheck armed = nowCheck /\
  (0 <= random -> random < 1 ->
   min (pauseDuration config) <= max (pauseDuration config) ->
   min (pauseDuration config) <= duration /\
   duration <= max (pauseDuration config)) /\
  lastPauseCheck (snd result) = nowCheck /\
  (nowPaused < nowCheck + duration ->
   fst result = false /\ pausedUntil (snd result) = Some (nowCheck + duration)) /\
  (nowCheck + duration <= nowPaused -> pausedUntil (snd result) = None).
Proof.
  intros Hdue duration armed result.
  assert (Harmed : armed =
                   {| tokens := tokens state;
                      lastRefill := lastRefill state;
                      lastPauseCheck := nowCheck;
                      pausedUntil := Some (nowCheck + duration) |}).
  { unfold armed, checkMandatoryPause.
    apply Qle_bool_iff in Hdue. now rewrite Hdue. }
  split; [now rewrite Harmed|]. split; [now rewrite Harmed|]. split.
  { intros H0 H1 Hrange. unfold duration.
    set (span := max (pauseDuration config) - min (pauseDuration config)).
    assert (0 <= span) by (unfold span; lra).
    assert (0 <= random * span) by (apply Qmult_le_0_compat; lra).
    assert (random * span <= 1 * span) by (apply Qmult_le_compat_r; lra).
    unfold span in *. split; lra. }
  split.
  { unfold result. rewrite lastPauseCheck_after. fold armed. now rewrite Harmed. }
  unfold result, tryConsume. fold armed. rewrite Harmed.
  unfold isPaused; cbn [pausedUntil].
  split.
  - intros Hactive.
    destruct (Qle_bool (nowCheck + duration) nowPaused) eqn:Hover.
    + apply Qle_bool_iff in Hover. lra.
    + split; reflexivity.
  - intros Hover. apply Qle_bool_iff in Hover. rewrite Hover.
    cbn [tokens lastRefill lastPauseCheck pausedUntil].
    destruct (negb _); reflexivity.
Qed.

(** The tests' scenario, all clock reads of a call returning the same
    time: consume 10 at time 0, read the tokens at 0 and at 1000. *)
Example consume_all_then_refill :
  let created := createRateLimiter Fixtures.bucketConfig 0 0 in
  let consumed := tryConsume Fixtures.bucketConfig 0 (1 # 2) 0 0 10 created in
  fst consumed = true /\
  fst (getTokens Fixtures.bucketConfig 0 (snd consumed)) = 0%Z /\
  fst (getTokens Fixtures.bucketConfig 1000 (snd consumed)) = 10%Z /\
  fst (getTokens Fixtures.bucketConfig 5000 (snd consumed)) = 10%Z.
Proof. vm_compute. repeat split. Qed.

Example consume_eleven_is_refused :
  let created := createRateLimiter Fixtures.bucketConfig 0 0 in
  let refused := tryConsume Fixtures.bucketConfig 0 (1 # 2) 0 0 11 created in
  fst refused = false /\
  fst (getTokens Fixtures.bucketConfig 0 (snd refused)) = 10%Z.
Proof. vm_compute. repeat split. Qed.

Lemma tryConsume_all_or_nothing_and_capped_refill_witness :
  maxTokens Fixtures.bucketConfig == 10 /\
  refillRate Fixtures.bucketConfig == 1 # 100 /\
  (let consumed :=
     tryConsume Fixtures.bucketConfig 0 (1 # 2) 0 0 10
                (createRateLimiter Fixtures.bucketConfig 0 0) in
   fst (getTokens Fixtures.bucketConfig 1000 (snd consumed)) = 10%Z) /\
  (let refused :=
     tryConsume Fixtures.bucketConfig 0 (1 # 2) 0 0 11
                (createRateLimiter Fixtures.bucketConfig 0 0) in
   fst refused = false /\ tokens (snd refused) == 10).
Proof.
  assert (Hmax : maxTokens Fixtures.bucketConfig == 10) by reflexivity.
  assert (Hrate : refillRate Fixtures.bucketConfig == 1 # 100) by reflexivity.
  split; [exact Hmax|]. split; [exact Hrate|].
  destruct tryConsume_all_or_nothing_and_capped_refill as (Hbucket & _).
  destruct (Hbucket Fixtures.bucketConfig Hmax Hrate) as (Hrefill & Hrefuse).
  split.
  - cbv zeta. apply (Hrefill 0 0 0 (1 # 2) 0 0 1000).
    + unfold Qle; simpl; lia.
    + reflexivity.
    + reflexivity.
  - apply (Hrefuse (createRateLimiter Fixtures.bucketConfig 0 0) 0 (1 # 2) 0 0).
    + reflexivity.
    + unfold Qle; simpl; lia.
Defined.

Lemma tryConsume_arms_mandatory_pause_witness :
  pauseInterval Fixtures.pauseConfig
  <= 1100 - lastPauseCheck Fixtures.pausedState /\
  (let result :=
     tryConsume Fixtures.pauseConfig 1100 (1 # 2) 1100 1100 1 Fixtures.pausedState in
   fst result = false /\
   lastPauseCheck (snd result) = 1100 /\
   pausedUntil (snd result) = Some (1100 + (500 + (1 # 2) * (500 - 500)))).
Proof.
  assert (Hdue : pauseInterval Fixtures.pauseConfig
                 <= 1100 - lastPauseCheck Fixtures.pausedState)
    by (unfold Qle; simpl; lia).
  split; [exact Hdue|].
  destruct (@tryConsume_arms_mandatory_pause Fixtures.pauseConfig
              1100 (1 # 2) 1100 1100 1 Fixtures.pausedState Hdue)
    as (_ & _ & _ & Hlast & Hactive & _).
  destruct Hactive as [Hrefused Huntil]; [unfold Qlt; simpl; lia|].
  cbv zeta. split; [exact Hrefused|]. split; [exact Hlast | exact Huntil].
Defined.

End RateLimiterProofs.

(* ===================================================================== *)
(** * Properties of the drift fingerprint *)
(* ===================================================================== *)

Module VersionGuardProofs.

Import VersionGuard VersionGuardSpec.

Local Open Scope Z_scope.

Lemma ToInt32_wrap (z : Z) : ToInt32 z = wrapSigned32 z.
Proof.
  unfold ToInt32, wrapSigned32.
  change (2 ^ 31) with 2147483648. change (2 ^ 32) with 4294967296.
  pose proof (Z.mod_pos_bound z 4294967296 eq_refl) as Hz.
  pose proof (Z.div_mod z 4294967296) as Hdm.
  destruct (Z.leb_spec 2147483648 (z mod 4294967296)) as [Hhi|Hlo].
  - rewrite <- (Z.mod_unique (z + 2147483648) 4294967296
                  (z / 4294967296 + 1) (z mod 4294967296 - 2147483648)); lia.
  - rewrite <- (Z.mod_unique (z + 2147483648) 4294967296
                  (z / 4294967296) (z mod 4294967296 + 2147483648)); lia.
Qed.

(** [ToInt32] only depends on the residue modulo 2^32. *)
Lemma ToInt32_congr (a b : Z) :
  a mod 4294967296 = b mod 4294967296 -> ToInt32 a = ToInt32 b.
Proof. unfold ToInt32. now intros ->. Qed.

Lemma ToInt32_mod (a : Z) : ToInt32 a mod 4294967296 = a mod 4294967296.
Proof.
  unfold ToInt32.
  destruct (Z.leb_spec 2147483648 (a mod 4294967296)).
  - replace (a mod 4294967296 - 4294967296)
      with (a mod 4294967296 + (-1) * 4294967296) by lia.
    rewrite Z.mod_add by lia. apply Z.mod_mod. lia.
  - apply Z.mod_mod. lia.
Qed.

Lemma ToInt32_range (a : Z) : - 2 ^ 31 <= ToInt32 a < 2 ^ 31.
Proof.
  unfold ToInt32. change (2 ^ 31) with 2147483648.
  pose proof (Z.mod_pos_bound a 4294967296 eq_refl).
  destruct (Z.leb_spec 2147483648 (a mod 4294967296)); lia.
Qed.

Lemma ToInt32_shift (a : Z) : exists k, ToInt32 a = a + k * 4294967296.
Proof.
  unfold ToInt32. rewrite Z.mod_eq by lia.
  destruct (2147483648 <=? a - 4294967296 * (a / 4294967296)).
  - exists (- (a / 4294967296) - 1). lia.
  - exists (- (a / 4294967296)). lia.
Qed.

(** One step of the code's fold is one step of the rolling hash. *)
Lemma step_rolling (acc : Z) (char : JsString16) :
  step acc char = wrapSigned32 (acc * 31 + charCodeAt0 char).
Proof.
  unfold step, bor, shl. cbv zeta.
  change (ToInt32 0) with 0. rewrite Z.lor_0_r.
  change (5 mod 32) with 5. rewrite Z.shiftl_mul_pow2 by lia.
  change (2 ^ 5) with 32.
  rewrite <- ToInt32_wrap. apply ToInt32_congr. rewrite ToInt32_mod.
  destruct (ToInt32_shift acc) as [k2 E2].
  destruct (ToInt32_shift (ToInt32 acc * 32)) as [k1 E1].
  rewrite E1, E2.
  replace ((acc + k2 * 4294967296) * 32 + k1 * 4294967296 - acc + charCodeAt0 char)
    with (acc * 31 + charCodeAt0 char + (32 * k2 + k1) * 4294967296) by lia.
  apply Z.mod_add. lia.
Qed.

Lemma fold_step_rolling (chars : list JsString16) :
  forall acc,
    fold_left step chars acc =
    fold_left (fun a code => wrapSigned32 (a * 31 + code)) (map charCodeAt0 chars) acc.
Proof.
  induction chars as [|char chars IH]; intros acc; simpl; [reflexivity|].
  now rewrite step_rolling, IH.
Qed.

(** The segments "div:a:" and "NOT_FOUND". *)
Example hash_of_two_parts :
  generateDomHash [[100; 105; 118; 58; 97; 58]; [78; 79; 84; 95; 70; 79; 85; 78; 68]]
  = "5494badc".
Proof. vm_compute. reflexivity. Qed.

(** A document with none of the six landmarks: the hash is negative and
    is rendered with a sign. *)
Example hash_of_empty_document :
  generateDomHash (repeat [78; 79; 84; 95; 70; 79; 85; 78; 68] 6) = "-18be0668".
Proof. vm_compute. reflexivity. Qed.

End VersionGuardProofs.

(* ===================================================================== *)
(** * Further properties of the rate limiter *)
(* ===================================================================== *)

Module RateLimiterMore.

Import RateLimiter RateLimiterSpec RateLimiterRuns RateLimiterProofs.

Local Open Scope Q_scope.

Lemma refilled_le_sum (config : RateLimiterConfig) (now : Q) (state : RateLimiterState) :
  refilled config now state
  <= tokens state + (now - lastRefill state) * refillRate config.
Proof. unfold refilled. apply Q.le_min_r. Qed.

Lemma refilled_inBounds (config : RateLimiterConfig) (now : Q) (state : RateLimiterState) :
  inBounds config state ->
  0 <= refillRate config ->
  lastRefill state <= now ->
  0 <= refilled config now state /\ refilled config now state <= maxTokens config.
Proof.
  intros [Hlo Hhi] Hrate Hmono. unfold refilled.
  assert (Hgain : 0 <= (now - lastRefill state) * refillRate config)
    by (apply Qmult_le_0_compat; lra).
  set (gain := (now - lastRefill state) * refillRate config) in *.
  destruct (Q.min_spec (maxTokens config) (tokens state + gain)) as [[I E]|[I E]];
    split; lra.
Qed.

(** X16.  The bucket stays within [0, maxTokens]. *)
Theorem tryConsume_keeps_bucket_in_bounds
  (config : RateLimiterConfig)
  (nowCheck random nowPaused nowRefill count : Q) (state : RateLimiterState) :
  inBounds config state ->
  0 <= refillRate config ->
  lastRefill state <= nowRefill ->
  0 <= count ->
  inBounds config
    (snd (tryConsume config nowCheck random nowPaused nowRefill count state)).
Proof.
  intros Hin Hrate Hmono Hcount.
  pose proof (@refilled_inBounds config nowRefill state Hin Hrate Hmono) as [Hlo Hhi].
  pose proof (tryConsume_cases config nowCheck random nowPaused nowRefill count state)
    as Hcases.
  cbv zeta in Hcases. unfold inBounds in *.
  destruct Hcases as [(_ & _ & Htok & _)|[(_ & _ & Htok & _)|(_ & Hle & Htok & _)]];
    rewrite Htok; split; lra.
Qed.

(** A negative count is granted like any other and credits the bucket,
    past [maxTokens] if need be. *)
Example negative_count_overfills :
  let result :=
    tryConsume Fixtures.bucketConfig 0 (1 # 2) 0 0 (- (5))
               (createRateLimiter Fixtures.bucketConfig 0 0) in
  fst result = true /\ tokens (snd result) == 15.
Proof. vm_compute. split; reflexivity. Qed.

Lemma run_bound (config : RateLimiterConfig) (calls : list Call) :
  forall state,
    fst (run config calls state) + tokens (snd (run config calls state))
    <= tokens state
       + refillRate config
         * (lastRefill (snd (run config calls state)) - lastRefill state).
Proof.
  induction calls as [|call rest IH]; intros state.
  - simpl. lra.
  - simpl.
    pose proof (tryConsume_cases config (nowCheck call) (random call)
                  (nowPaused call) (nowRefill call) (count call) state) as Hcases.
    cbv zeta in Hcases.
    pose proof (refilled_le_sum config (nowRefill call) state) as Hsum.
    destruct (tryConsume config (nowCheck call) (random call) (nowPaused call)
                (nowRefill call) (count call) state) as [granted state'].
    specialize (IH state').
    destruct (run config rest state') as [total final]. simpl in *.
    destruct Hcases as [(-> & _ & Htok & Hlast)|[(-> & _ & Htok & Hlast)|(-> & _ & Htok & Hlast)]];
      rewrite Htok, Hlast in IH; lra.
Qed.

(** X17.  The token-bucket guarantee over a session, in exact rational
    arithmetic: what a sequence of [tryConsume] calls grants, plus what
    is left in the bucket, is at most what the bucket held before the
    session plus [refillRate] times the time from the last refill before
    the session to the last refill of the session.  The code's doubles
    round each refill, so there the bound can be passed in the last
    digit: three refills 1 ms apart at rate 0.1 leave
    0.30000000000000004 tokens. *)
Theorem session_grants_at_most_bucket_plus_refill
  (config : RateLimiterConfig) (calls : list Call) (state : RateLimiterState) :
  let total := fst (run config calls state) in
  let final := snd (run config calls state) in
  total + tokens final
  <= tokens state + refillRate config * (lastRefill final - lastRefill state) /\
  (0 <= tokens final ->
   tokens state <= maxTokens config ->
   total <= maxTokens config
            + refillRate config * (lastRefill final - lastRefill state)).
Proof.
  cbv zeta. pose proof (run_bound config calls state) as H.
  split; [exact H|]. intros Hfinal Hmax. lra.
Qed.

(** [isPaused] expires the window lazily. *)
Theorem isPaused_lazy_expiry (now : Q) (state : RateLimiterState) :
  (fst (isPaused now state) = true <->
   exists untilTime, pausedUntil state = Some untilTime /\ now < untilTime) /\
  (fst (isPaused now state) = true -> snd (isPaused now state) = state) /\
  (fst (isPaused now state) = false ->
   getResumeTime (snd (isPaused now state)) = None /\
   tokens (snd (isPaused now state)) = tokens state /\
   lastRefill (snd (isPaused now state)) = lastRefill state /\
   lastPauseCheck (snd (isPaused now state)) = lastPauseCheck state).
Proof.
  unfold isPaused, getResumeTime.
  destruct (pausedUntil state) as [u|] eqn:Hu.
  - destruct (Qle_bool u now) eqn:Hle; simpl.
    + apply Qle_bool_iff in Hle. repeat split; try discriminate; auto.
      intros (v & Hv & Hlt). injection Hv as <-. lra.
    + repeat split; try discriminate; auto.
      intros _. exists u. split; [reflexivity|].
      apply Qnot_le_lt. intros Hc. apply Qle_bool_iff in Hc. congruence.
  - simpl. repeat split; try discriminate; auto.
    intros (v & Hv & _). discriminate.
Qed.

(** X18.  A call inside an active window, no new pause being due, is
    refused and changes nothing. *)
Theorem tryConsume_during_pause_changes_nothing
  (config : RateLimiterConfig)
  (nowCheck random nowPaused nowRefill count untilTime : Q)
  (state : RateLimiterState) :
  nowCheck - lastPauseCheck state < pauseInterval config ->
  pausedUntil state = Some untilTime ->
  nowPaused < untilTime ->
  tryConsume config nowCheck random nowPaused nowRefill count state
  = (false, state).
Proof.
  intros Hnotdue Hu Hlt. unfold tryConsume, checkMandatoryPause.
  destruct (Qle_bool (pauseInterval config) (nowCheck - lastPauseCheck state)) eqn:Hdue.
  - apply Qle_bool_iff in Hdue. lra.
  - unfold isPaused. rewrite Hu.
    destruct (Qle_bool untilTime nowPaused) eqn:Hover.
    + apply Qle_bool_iff in Hover. lra.
    + reflexivity.
Qed.

Lemma tryConsume_armed_state
  (config : RateLimiterConfig)
  (nowCheck random nowPaused nowRefill count : Q) (state : RateLimiterState) :
  pauseInterval config <= nowCheck - lastPauseCheck state ->
  let untilTime :=
    nowCheck
    + (min (pauseDuration config)
       + random * (max (pauseDuration config) - min (pauseDuration config))) in
  nowPaused < untilTime ->
  tryConsume config nowCheck random nowPaused nowRefill count state
  = (false,
     {| tokens := tokens state;
        lastRefill := lastRefill state;
        lastPauseCheck := nowCheck;
        pausedUntil := Some untilTime |}).
Proof.
  intros Hdue untilTime Hlt. unfold tryConsume, checkMandatoryPause.
  apply Qle_bool_iff in Hdue. rewrite Hdue.
  unfold isPaused; cbn [pausedUntil]. fold untilTime.
  destruct (Qle_bool untilTime nowPaused) eqn:Hover.
  - apply Qle_bool_iff in Hover. lra.
  - reflexivity.
Qed.

(** X19.  The life of a mandatory pause. *)
Theorem mandatory_pause_lasts_until_pausedUntil
  (config : RateLimiterConfig)
  (nowCheck random nowPaused nowRefill count : Q) (state : RateLimiterState) :
  pauseInterval config <= nowCheck - lastPauseCheck state ->
  let untilTime :=
    nowCheck
    + (min (pauseDuration config)
       + random * (max (pauseDuration config) - min (pauseDuration config))) in
  nowPaused < untilTime ->
  let armed :=
    snd (tryConsume config nowCheck random nowPaused nowRefill count state) in
  getResumeTime armed = Some untilTime /\
  tokens armed = tokens state /\
  (forall later, later < untilTime -> fst (isPaused later armed) = true) /\
  (forall later, untilTime <= later ->
                 fst (isPaused later armed) = false /\
                 getResumeTime (snd (isPaused later armed)) = None).
Proof.
  intros Hdue untilTime Hlt armed.
  unfold armed.
  rewrite (@tryConsume_armed_state config nowCheck random nowPaused nowRefill count state Hdue Hlt).
  fold untilTime. cbn [snd]. unfold getResumeTime, isPaused; cbn [pausedUntil tokens].
  repeat split.
  - intros later Hl. destruct (Qle_bool untilTime later) eqn:Hover; [|reflexivity].
    apply Qle_bool_iff in Hover. lra.
  - apply Qle_bool_iff in H. now rewrite H.
  - apply Qle_bool_iff in H. now rewrite H.
Qed.

(** X20.  [reset] gives back a full bucket with no pause. *)
Theorem reset_restores_full_unpaused_bucket
  (config : RateLimiterConfig) (now1 now2 later : Q) (state : RateLimiterState) :
  0 <= refillRate config ->
  now1 <= later ->
  let fresh := reset config now1 now2 state in
  fresh = createRateLimiter config now1 now2 /\
  fst (getTokens config later fresh) = Qfloor (maxTokens config) /\
  fst (isPaused later fresh) = false /\
  getResumeTime fresh = None.
Proof.
  intros Hrate Hmono fresh. unfold fresh, reset, createRateLimiter.
  repeat split. unfold getTokens, refillTokens; cbn [fst tokens lastRefill].
  apply Qfloor_comp.
  assert (Hgain : 0 <= (later - now1) * refillRate config)
    by (apply Qmult_le_0_compat; lra).
  set (gain := (later - now1) * refillRate config) in *.
  destruct (Q.min_spec (maxTokens config) (maxTokens config + gain)) as [[I E]|[I E]];
    lra.
Qed.

(** X21.  [getTokens] leaves the pause alone and reads the same count
    twice. *)
Theorem getTokens_keeps_pause_and_is_stable
  (config : RateLimiterConfig) (now : Q) (state : RateLimiterState) :
  let after := snd (getTokens config now state) in
  pausedUntil after = pausedUntil state /\
  lastPauseCheck after = lastPauseCheck state /\
  lastRefill after = now /\
  fst (getTokens config now after) = fst (getTokens config now state).
Proof.
  cbv zeta. unfold getTokens, refillTokens; cbn [fst snd tokens lastRefill
                                                  pausedUntil lastPauseCheck].
  repeat split. apply Qfloor_comp.
  set (x := tokens state + (now - lastRefill state) * refillRate config).
  assert (Hzero : (now - now) * refillRate config == 0) by ring.
  set (z := (now - now) * refillRate config) in *.
  destruct (Q.min_spec (maxTokens config) x) as [[I E]|[I E]];
    destruct (Q.min_spec (maxTokens config) (Qmin (maxTokens config) x + z))
      as [[I2 E2]|[I2 E2]]; lra.
Qed.

End RateLimiterMore.

(* ===================================================================== *)
(** * Properties of the Result combinators *)
(* ===================================================================== *)

Module ResultOpsProofs.

Import ResultOps.

(** [map] and [flatMap] obey the functor and monad laws, and [map]
    is [flatMap] into [ok]. *)
Theorem map_flatMap_laws (T U V E : Type) (result : Result T E)
  (f : T -> U) (g : U -> V) (k : T -> Result U E) (h : U -> Result V E) (v : T) :
  map result (fun x => x) = result /\
  map (map result f) g = map result (fun x => g (f x)) /\
  flatMap (ok v) k = k v /\
  flatMap result ok = result /\
  flatMap (flatMap result k) h = flatMap result (fun x => flatMap (k x) h) /\
  map result f = flatMap result (fun x => ok (f x)) /\
  (isOk (map result f) = isOk result) /\
  (forall d, unwrapOr (map result f) (f d) = f (unwrapOr result d)).
Proof. destruct result; repeat split. Qed.

Lemma combineLoop_all_ok (T E : Type) (values : list T) :
  forall acc : list T,
    combineLoop acc (List.map (@ok T E) values) = ok (acc ++ values).
Proof.
  induction values as [|v values IH]; intros acc; simpl.
  - now rewrite app_nil_r.
  - rewrite IH, <- app_assoc. reflexivity.
Qed.

Lemma combineLoop_inv (T E : Type) (results : list (Result T E)) :
  forall acc : list T,
    match combineLoop acc results with
    | ok values =>
        exists rest, values = acc ++ rest /\ results = List.map ok rest
    | err e =>
        exists before after,
          results = List.map ok before ++ err e :: after
    end.
Proof.
  induction results as [|r results IH]; intros acc; simpl.
  - exists []. now rewrite app_nil_r.
  - destruct r as [v|e].
    + specialize (IH (acc ++ [v])).
      destruct (combineLoop (acc ++ [v]) results) as [values|e].
      * destruct IH as (rest & -> & ->). exists (v :: rest).
        rewrite <- app_assoc. auto.
      * destruct IH as (before & after & ->). now exists (v :: before), after.
    + now exists [], results.
Qed.

(** X7.  [combine] gives all the values, in order, when every result is
    ok, and otherwise the first error of the list. *)
Theorem combine_all_or_first_error (T E : Type) (results : list (Result T E)) :
  (forall values, combine results = ok values <-> results = List.map ok values) /\
  (forall e,
      combine results = err e <->
      exists before after, results = List.map ok before ++ err e :: after).
Proof.
  unfold combine. split.
  - intros values. split.
    + intros H. pose proof (combineLoop_inv results []) as Hinv.
      rewrite H in Hinv. destruct Hinv as (rest & Hv & Hr). simpl in Hv. now subst.
    + intros ->. apply (combineLoop_all_ok E values []).
  - intros e. split.
    + intros H. pose proof (combineLoop_inv results []) as Hinv.
      now rewrite H in Hinv.
    + intros (before & after & ->).
      assert (Hgen : forall acc : list T,
                 combineLoop acc (List.map ok before ++ err e :: after) = err e).
      { induction before as [|b before IH]; intros acc; simpl; auto. }
      apply Hgen.
Qed.

End ResultOpsProofs.

(* ===================================================================== *)
(** * Further properties of the traversal engine *)
(* ===================================================================== *)

Module TraversalMore.

Import Traversal TraversalKeys TraversalSpec TraversalReach TraversalProofs.

Lemma startsWith_append (key keyPrefix : string) :
  startsWith key keyPrefix = true <->
  exists rest, key = (keyPrefix ++ rest)%string.
Proof.
  unfold startsWith. revert key.
  induction keyPrefix as [|c p IH]; intros key; simpl.
  - split; [intros _; now exists key | intros _; destruct key; reflexivity].
  - destruct key as [|c' key]; simpl.
    + split; [discriminate | intros (rest & H); discriminate].
    + destruct (Ascii.ascii_dec c c') as [->|Hne].
      * rewrite IH. split; intros (rest & H); exists rest.
        -- now rewrite H.
        -- now injection H.
      * split; [discriminate|]. intros (rest & H). injection H as H1 _.
        now destruct Hne.
Qed.

(** X5.  [findFiberPropertyKey] returns the first key that starts with
    the prefix, and null exactly when no key does. *)
Theorem findFiberPropertyKey_first_with_prefix
  (elementKeys : list string) (keyPrefix : string) :
  (findFiberPropertyKey elementKeys keyPrefix = None <->
   forall key, In key elementKeys ->
               ~ exists rest, key = (keyPrefix ++ rest)%string) /\
  (forall fiberKey,
      findFiberPropertyKey elementKeys keyPrefix = Some fiberKey <->
      exists before after rest,
        elementKeys = before ++ fiberKey :: after /\
        fiberKey = (keyPrefix ++ rest)%string /\
        forall key, In key before ->
                    ~ exists rest', key = (keyPrefix ++ rest')%string).
Proof.
  unfold findFiberPropertyKey.
  induction elementKeys as [|k keys [IHnone IHsome]]; simpl.
  - split.
    + split; [intros _ key [] | reflexivity].
    + intros fiberKey. split; [discriminate|].
      intros (before & after & rest & H & _). now destruct before.
  - destruct (startsWith k keyPrefix) eqn:Hk.
    + split.
      * split; [discriminate|]. intros H. exfalso.
        apply (H k); [now left|]. now apply startsWith_append.
      * intros fiberKey. split.
        -- intros [= <-]. apply startsWith_append in Hk as [rest Hrest].
           exists [], keys, rest. repeat split; auto.
        -- intros (before & after & rest & H & Hf & Hbefore).
           destruct before as [|b before]; simpl in H.
           ++ injection H as Hkf _. now subst fiberKey.
           ++ injection H as Hkb _. subst b. exfalso.
              apply (Hbefore k); [now left|]. now apply startsWith_append.
    + assert (Hnot : ~ exists rest, k = (keyPrefix ++ rest)%string).
      { intros H. apply startsWith_append in H. congruence. }
      split.
      * rewrite IHnone. split.
        -- intros H key [<-|Hin]; auto.
        -- intros H key Hin. apply H. now right.
      * intros fiberKey. rewrite IHsome. split.
        -- intros (before & after & rest & -> & Hf & Hbefore).
           exists (k :: before), after, rest. repeat split; auto.
           intros key [<-|Hin]; auto.
        -- intros (before & after & rest & H & Hf & Hbefore).
           destruct before as [|b before]; simpl in H.
           ++ injection H as Hkf _. subst fiberKey. exfalso.
              apply Hnot. now exists rest.
           ++ injection H as Hkb Hkeys. subst b keys. exists before, after, rest.
              repeat split; auto. intros key Hin. apply Hbefore. now right.
Qed.

Section AnyStore.

Variable store : FiberStore.
Variable predicate : FiberPredicate.
Variable maxDepth : nat.

Lemma traverseUp_sound (n : nat) :
  forall current depth,
    S maxDepth - depth <= n ->
    match traverseUp store predicate maxDepth current depth with
    | ok found =>
        exists d,
          depth + d <= maxDepth /\
          ancestorAt store current d = Some found /\
          predicate found = true /\
          noMatchBelow store predicate current d
    | err e => error_type e = TRAVERSAL_FAILED
    end.
Proof.
  induction n as [|n IH]; intros current depth Hn;
    rewrite traverseUp_unfold; destruct current as [node|]; try reflexivity;
    destruct (gt_dec depth maxDepth) as [Hgt|Hle]; try reflexivity; try lia.
  destruct (predicate node) eqn:Hp.
  - exists 0. repeat split; auto; [lia|]. intros k b Hk. lia.
  - specialize (IH (return_ (store node)) (depth + 1)).
    destruct (traverseUp store predicate maxDepth (return_ (store node)) (depth + 1))
      as [found|e]; [|apply IH; lia].
    destruct IH as (d & Hd & Hanc & Hfound & Hno); [lia|].
    exists (S d). repeat split; auto; [lia|].
    intros k b Hk Hb. destruct k as [|k]; simpl in Hb.
    + injection Hb as <-. exact Hp.
    + apply (Hno k b); [lia | exact Hb].
Qed.

Lemma traverseDown_sound (n : nat) :
  forall node depth,
    S maxDepth - depth <= n ->
    match traverseDown store predicate maxDepth (Some node) depth with
    | ok found =>
        predicate found = true /\
        exists d, depth + d <= maxDepth /\ linked store node d found
    | err e => error_type e = TRAVERSAL_FAILED
    end.
Proof.
  induction n as [|n IH]; intros node depth Hn;
    rewrite traverseDown_unfold;
    destruct (gt_dec depth maxDepth) as [Hgt|Hle]; try reflexivity; try lia.
  destruct (predicate node) eqn:Hp.
  - split; [exact Hp|]. exists 0. split; [lia | constructor].
  - assert (Hstep :
      forall next,
        (child (store node) = Some next \/ sibling (store node) = Some next) ->
        match traverseDown store predicate maxDepth (Some next) (depth + 1) with
        | ok found =>
            predicate found = true /\
            exists d, depth + d <= maxDepth /\ linked store node d found
        | err e => error_type e = TRAVERSAL_FAILED
        end).
    { intros next Hnext. specialize (IH next (depth + 1)).
      destruct (traverseDown store predicate maxDepth (Some next) (depth + 1))
        as [found|e]; [|apply IH; lia].
      destruct IH as (Hfound & d & Hd & Hlink); [lia|].
      split; [exact Hfound|]. exists (S d). split; [lia|].
      destruct Hnext as [Hc|Hs];
        [eapply linked_child | eapply linked_sibling]; eauto. }
    assert (Hnull :
      match traverseDown store predicate maxDepth None (depth + 1) with
      | ok _ => False
      | err e => error_type e = TRAVERSAL_FAILED
      end) by (rewrite traverseDown_unfold; reflexivity).
    destruct (child (store node)) as [c|] eqn:Hc.
    + pose proof (Hstep c (or_introl eq_refl)) as Hchild.
      destruct (traverseDown store predicate maxDepth (Some c) (depth + 1))
        as [found|e]; [exact Hchild|].
      destruct (sibling (store node)) as [s|] eqn:Hs.
      * apply (Hstep s). now right.
      * destruct (traverseDown store predicate maxDepth None (depth + 1));
          [contradiction | exact Hnull].
    + destruct (traverseDown store predicate maxDepth None (depth + 1)) as [x|e] eqn:Hn0;
        [contradiction|].
      destruct (sibling (store node)) as [s|] eqn:Hs.
      * apply (Hstep s). now right.
      * rewrite Hn0. exact Hnull.
Qed.

End AnyStore.

(** X1.  On every store, cycles included, [traverseUpwards] only returns
    a node that satisfies the predicate, is the first to do so on the
    chain of parents, and is at most [maxDepth] links up; and it fails
    with no other tag than TRAVERSAL_FAILED. *)
Theorem traverseUpwards_sound_on_any_store
  (store : FiberStore) (predicate : FiberPredicate)
  (fiberNode : NodeRef) (maxDepth : nat) :
  match traverseUpwards store predicate fiberNode maxDepth with
  | ok found =>
      exists d,
        d <= maxDepth /\
        ancestorAt store (Some fiberNode) d = Some found /\
        predicate found = true /\
        noMatchBelow store predicate (Some fiberNode) d
  | err e => error_type e = TRAVERSAL_FAILED
  end.
Proof.
  unfold traverseUpwards.
  pose proof (@traverseUp_sound store predicate maxDepth (S maxDepth)
                (Some fiberNode) 0) as H.
  destruct (traverseUp store predicate maxDepth (Some fiberNode) 0); [|apply H; lia].
  destruct H as (d & Hd & H); [lia|]. exists d. split; [lia | exact H].
Qed.

(** X2.  On every store, cycles included, [traverseDownwards] only
    returns a node that satisfies the predicate and that at most
    [maxDepth] [child] or [sibling] links separate from the starting
    node; and it fails with no other tag than TRAVERSAL_FAILED. *)
Theorem traverseDownwards_sound_on_any_store
  (store : FiberStore) (predicate : FiberPredicate)
  (fiberNode : NodeRef) (maxDepth : nat) :
  match traverseDownwards store predicate fiberNode maxDepth with
  | ok found =>
      predicate found = true /\
      exists d, d <= maxDepth /\ linked store fiberNode d found
  | err e => error_type e = TRAVERSAL_FAILED
  end.
Proof.
  unfold traverseDownwards.
  pose proof (@traverseDown_sound store predicate maxDepth (S maxDepth) fiberNode 0) as H.
  destruct (traverseDown store predicate maxDepth (Some fiberNode) 0); [|apply H; lia].
  destruct H as (Hp & d & Hd & H); [lia|]. split; [exact Hp|].
  exists d. split; [lia | exact H].
Qed.

End TraversalMore.

Module TraversalCollect.

Import Traversal TraversalSpec TraversalReach TraversalProofs.

Section AnyStore.

Variable store : FiberStore.
Variable predicate : FiberPredicate.
Variable maxNodes : nat.

Lemma collect_more_fuel (fuel : nat) :
  forall current w w',
    collect store predicate maxNodes fuel current w = Some w' ->
    forall fuel', fuel <= fuel' ->
                  collect store predicate maxNodes fuel' current w = Some w'.
Proof.
  induction fuel as [|fuel IH]; intros current w w' H fuel' Hle.
  - destruct current as [node|]; simpl in H.
    + destruct (maxNodes <=? List.length (results w)) eqn:Hfull; [|discriminate].
      destruct fuel'; simpl; now rewrite Hfull.
    + destruct fuel'; exact H.
  - destruct fuel' as [|fuel']; [lia|].
    destruct current as [node|]; simpl in *; [|exact H].
    destruct (maxNodes <=? List.length (results w)); [exact H|].
    destruct (collect store predicate maxNodes fuel (child (store node))
                (test predicate node w)) as [w1|] eqn:E1; [|discriminate].
    rewrite (IH _ _ _ E1 fuel') by lia.
    apply (IH _ _ _ H). lia.
Qed.

(** What a walk from [current] may add. *)
Definition addedFrom (current : option NodeRef) (n : NodeRef) : Prop :=
  predicate n = true /\
  exists start d, current = Some start /\ linked store start d n.

Lemma addedFrom_step (node : NodeRef) (next : option NodeRef) (n : NodeRef) :
  child (store node) = next \/ sibling (store node) = next ->
  addedFrom next n -> addedFrom (Some node) n.
Proof.
  intros Hnext (Hp & start & d & -> & Hlink). split; [exact Hp|].
  exists node, (S d). split; [reflexivity|].
  destruct Hnext; [eapply linked_child | eapply linked_sibling]; eauto.
Qed.

Lemma collect_adds_matches (fuel : nat) :
  forall current w w',
    collect store predicate maxNodes fuel current w = Some w' ->
    exists added,
      results w' = results w ++ added /\
      Forall (addedFrom current) added /\
      List.length (results w') <= Nat.max maxNodes (List.length (results w)).
Proof.
  induction fuel as [|fuel IH]; intros current w w' H.
  - destruct current as [node|]; simpl in H.
    + destruct (maxNodes <=? List.length (results w)); [|discriminate].
      injection H as <-. exists []. rewrite app_nil_r. repeat split; auto; lia.
    + injection H as <-. exists []. rewrite app_nil_r. repeat split; auto; lia.
  - destruct current as [node|]; simpl in H.
    + destruct (Nat.leb_spec maxNodes (List.length (results w))) as [Hfull|Hroom].
      * injection H as <-. exists []. rewrite app_nil_r. repeat split; auto; lia.
      * destruct (collect store predicate maxNodes fuel (child (store node))
                    (test predicate node w)) as [w1|] eqn:E1; [|discriminate].
        destruct (IH _ _ _ E1) as (a1 & R1 & F1 & L1).
        destruct (IH _ _ _ H) as (a2 & R2 & F2 & L2).
        assert (F1' : Forall (addedFrom (Some node)) a1).
        { eapply Forall_impl; [|exact F1]. intros n. apply addedFrom_step. now left. }
        assert (F2' : Forall (addedFrom (Some node)) a2).
        { eapply Forall_impl; [|exact F2]. intros n. apply addedFrom_step. now right. }
        unfold test in R1, L1; simpl in R1, L1.
        assert (Hlen : List.length (results w')
                       <= Nat.max maxNodes (List.length (results w))).
        { destruct (predicate node); rewrite ?length_app in L1; simpl in L1; lia. }
        destruct (predicate node) eqn:Hp.
        -- exists ((node :: a1) ++ a2). rewrite R2, R1, <- !app_assoc. simpl.
           split; [reflexivity|]. split; [|rewrite R2, R1, <- !app_assoc in Hlen; exact Hlen].
           constructor; [|apply Forall_app; now split].
           split; [exact Hp|]. exists node, 0. split; [reflexivity|constructor].
        -- exists (a1 ++ a2). rewrite R2, R1, <- !app_assoc.
           split; [reflexivity|]. split; [|rewrite R2, R1, <- !app_assoc in Hlen; exact Hlen].
           apply Forall_app. now split.
    + injection H as <-. exists []. rewrite app_nil_r. repeat split; auto; lia.
Qed.

End AnyStore.

(** X3.  On every store, whenever [collectNodes] returns, each node it
    returns satisfies the predicate and is reachable from the starting
    node by [child] and [sibling] links, and there are at most
    [maxNodes] of them; the result does not depend on how long the walk
    was allowed to run. *)
Theorem collectNodes_sound_on_any_store
  (store : FiberStore) (predicate : FiberPredicate)
  (maxNodes fuel : nat) (fiberNode : NodeRef) (nodes : list NodeRef) :
  collectNodes store predicate maxNodes fuel fiberNode = Some nodes ->
  (forall n, In n nodes ->
             predicate n = true /\ exists d, linked store fiberNode d n) /\
  List.length nodes <= maxNodes /\
  (forall fuel', fuel <= fuel' ->
                 collectNodes store predicate maxNodes fuel' fiberNode = Some nodes).
Proof.
  unfold collectNodes, collectWalk. intros H.
  destruct (collect store predicate maxNodes fuel (Some fiberNode)
              {| results := []; tested := [] |}) as [w|] eqn:E; [|discriminate].
  injection H as <-.
  destruct (@collect_adds_matches store predicate maxNodes fuel _ _ _ E)
    as (added & R & F & L).
  simpl in R, L. subst added. repeat split.
  - rewrite Forall_forall in F. now apply F.
  - rewrite Forall_forall in F. destruct (F n H) as (_ & start & d & Hs & Hl).
    injection Hs as <-. now exists d.
  - lia.
  - intros fuel' Hle.
    now rewrite (@collect_more_fuel store predicate maxNodes fuel _ _ _ E fuel' Hle).
Qed.

(** On a cycle a walk may run for ever, but it does return once the
    bound is reached. *)
Example collect_on_a_cycle_stops_at_maxNodes :
  collectNodes (fun _ => Fixtures.createMockFiberNode None (Some 0) None)
               (fun _ => true) 3 3 0
  = Some [0; 0; 0].
Proof. reflexivity. Qed.

Section OnTrees.

Variable store : FiberStore.
Variable predicate : FiberPredicate.

Lemma preorderLinks_nodes (t : Tree) :
  forall depth, List.map fst (preorderLinks depth t) = preorder t.
Proof.
  induction t as [|node c IHc s IHs]; intros depth; simpl; [reflexivity|].
  now rewrite map_app, IHc, IHs.
Qed.

Lemma withinDepth_all (maxDepth : nat) (t : Tree) :
  forall depth,
    depth + height t <= S maxDepth ->
    filter (withinDepth maxDepth) (preorderLinks depth t) = preorderLinks depth t.
Proof.
  induction t as [|node c IHc s IHs]; intros depth Hh; simpl; [reflexivity|].
  simpl in Hh. unfold withinDepth at 1; cbn [snd].
  destruct (Nat.leb_spec depth maxDepth); [|lia].
  rewrite filter_app, IHc, IHs by lia. reflexivity.
Qed.

Lemma find_head_of_filter (l : list NodeRef) :
  firstn 1 (filter predicate l) =
  match find predicate l with
  | Some x => [x]
  | None => []
  end.
Proof.
  induction l as [|x l IH]; simpl; [reflexivity|].
  destruct (predicate x); [reflexivity | exact IH].
Qed.

(** On a tree, some node is as many links away from the root as the
    longest chain of links allows. *)
Lemma deepest_linked (t : Tree) :
  forall r, shape store (Some r) t ->
            exists n, linked store r (pred (height t)) n.
Proof.
  induction t as [|node c IHc s IHs]; intros r Hshape; [contradiction|].
  destruct Hshape as (-> & Hc & Hs).
  change (height (Node node c s)) with (S (Nat.max (height c) (height s))).
  cbn [pred].
  destruct (Nat.max_spec (height c) (height s)) as [[Hlt ->]|[Hle ->]].
  - destruct (sibling (store node)) as [r'|] eqn:E.
    + destruct (IHs r' Hs) as (n & Hn). exists n.
      replace (height s) with (S (pred (height s))) by lia.
      eapply linked_sibling; eauto.
    + destruct s; [simpl in Hlt; lia | contradiction].
  - destruct (child (store node)) as [r'|] eqn:E.
    + destruct c as [|nc cc cs]; [contradiction|].
      destruct (IHc r' Hc) as (n & Hn). exists n.
      change (height (Node nc cc cs)) with (S (Nat.max (height cc) (height cs))) in *.
      cbn [pred] in Hn. eapply linked_child; eauto.
    + destruct c; [|contradiction]. exists node. constructor.
Qed.

End OnTrees.

(** Every fiber of the family is within three links of the root. *)
Lemma family_within_three_links :
  forall d n, linked Fixtures.family 0 d n -> d <= 3.
Proof.
  intros d n H.
  repeat match goal with
         | E : None = Some _ |- _ => discriminate E
         | E : Some _ = Some _ |- _ => injection E as <-
         | H : linked _ _ _ _ |- _ => inversion H; subst; clear H; simpl in *
         end; lia.
Qed.

(** X4.  On a finite tree in which no fiber is more than [maxDepth]
    links away from the starting node, a link being a [child] or a
    [sibling] link (the k-th child of a node is k links below it),
    [traverseDownwards] finds exactly the node [collectNodes] returns
    with [maxNodes = 1], and fails exactly when that list is empty. *)
Theorem traverseDownwards_agrees_with_collectNodes
  (store : FiberStore) (predicate : FiberPredicate)
  (fiberNode : NodeRef) (maxDepth fuel : nat) (t : Tree) :
  shape store (Some fiberNode) t ->
  (forall d n, linked store fiberNode d n -> d <= maxDepth) ->
  height t <= fuel ->
  match traverseDownwards store predicate fiberNode maxDepth with
  | ok found => collectNodes store predicate 1 fuel fiberNode = Some [found]
  | err e =>
      error_type e = TRAVERSAL_FAILED /\
      collectNodes store predicate 1 fuel fiberNode = Some []
  end.
Proof.
  intros Hshape Hlinks Hfuel.
  assert (Hdepth : height t <= S maxDepth).
  { destruct (@deepest_linked store t fiberNode Hshape) as (n & Hn).
    apply Hlinks in Hn. lia. }
  pose proof (@traverseDown_preorder store predicate maxDepth t (Some fiberNode) 0 Hshape)
    as Hdown.
  rewrite withinDepth_all, preorderLinks_nodes in Hdown by (simpl; lia).
  destruct (@collect_tree store predicate 1 t (Some fiberNode) fuel
              {| results := []; tested := [] |} Hshape Hfuel) as (w & E & R & _).
  cbn [results List.length app] in R. change (1 - 0) with 1 in R.
  rewrite find_head_of_filter in R.
  unfold collectNodes, collectWalk. rewrite E. simpl. rewrite R.
  unfold traverseDownwards.
  destruct (find predicate (preorder t)) as [x|].
  - now rewrite Hdown.
  - destruct (traverseDown store predicate maxDepth (Some fiberNode) 0) as [y|e];
      [discriminate|].
    simpl in Hdown. injection Hdown as Hdown. auto.
Qed.

(** A root with five children: the fifth child is one level below the
    root and five links away from it.  With [maxDepth = 3] the bounded
    search does not reach it, while the collection does. *)
Example fifth_child_is_five_links_away :
  let store : FiberStore :=
    fun r =>
      match r with
      | 0 => Fixtures.createMockFiberNode None (Some 1) None
      | 5 => Fixtures.createMockFiberNode (Some 0) None None
      | _ => Fixtures.createMockFiberNode (Some 0) None (Some (S r))
      end in
  linked store 0 5 5 /\
  TraversalSpec.errorTypeOf (traverseDownwards store (Nat.eqb 5) 0 3)
  = Some TRAVERSAL_FAILED /\
  traverseDownwards store (Nat.eqb 5) 0 5 = ok 5 /\
  collectNodes store (Nat.eqb 5) 1 6 0 = Some [5].
Proof.
  cbv zeta. split; [|repeat split].
  eapply linked_child; [reflexivity|].
  do 4 (eapply linked_sibling; [reflexivity|]). constructor.
Qed.

Lemma traverseDownwards_agrees_with_collectNodes_witness :
  shape Fixtures.family (Some 0) Fixtures.familyTree /\
  (forall d n, linked Fixtures.family 0 d n -> d <= 3) /\
  height Fixtures.familyTree <= 4 /\
  traverseDownwards Fixtures.family (Nat.leb 2) 0 3 = ok 3 /\
  collectNodes Fixtures.family (Nat.leb 2) 1 4 0 = Some [3].
Proof.
  assert (Hshape : shape Fixtures.family (Some 0) Fixtures.familyTree)
    by (simpl; repeat split).
  assert (Hh : height Fixtures.familyTree <= 4) by (simpl; lia).
  split; [exact Hshape|]. split; [exact family_within_three_links|].
  split; [exact Hh|]. split; [reflexivity|].
  exact (@traverseDownwards_agrees_with_collectNodes
           Fixtures.family (Nat.leb 2) 0 3 4 Fixtures.familyTree Hshape
           family_within_three_links Hh).
Defined.

Lemma collectNodes_sound_on_any_store_witness :
  collectNodes Fixtures.family (Nat.leb 1) 2 4 0 = Some [1; 3] /\
  List.length [1; 3] <= 2 /\
  collectNodes Fixtures.family (Nat.leb 1) 2 9 0 = Some [1; 3].
Proof.
  assert (H : collectNodes Fixtures.family (Nat.leb 1) 2 4 0 = Some [1; 3])
    by reflexivity.
  split; [exact H|].
  destruct (@collectNodes_sound_on_any_store Fixtures.family (Nat.leb 1) 2 4 0 [1; 3] H)
    as (_ & Hlen & Hfuel).
  split; [exact Hlen|]. apply Hfuel. lia.
Defined.

Section Combinators.

Variable store : FiberStore.

(** X6.  [isComponentByName] matches a host element by its tag, a
    function component by its name or its display name, and nothing
    else. *)
Theorem isComponentByName_matches (node : NodeRef) (componentName : string) :
  isComponentByName store node componentName = true <->
  type (store node) = TypeString componentName \/
  exists c,
    type (store node) = TypeComponent c /\
    (name c = componentName \/ displayName c = Some componentName).
Proof.
  unfold isComponentByName. destruct (type (store node)) as [s|c|].
  - rewrite String.eqb_eq. split.
    + intros ->. now left.
    + intros [[= ->]|(c & Hc & _)]; [reflexivity | discriminate].
  - rewrite orb_true_iff, String.eqb_eq. split.
    + intros [Hn|Hd]; right; exists c; split; auto.
      destruct (displayName c) as [d|]; [|discriminate].
      apply String.eqb_eq in Hd. subst. now right.
    + intros [H|(c' & [= <-] & [Hn|Hd])]; [discriminate | now left | right].
      rewrite Hd. apply String.eqb_refl.
  - split; [discriminate|]. intros [H|(c & H & _)]; discriminate.
Qed.

(** [allOf] holds when every predicate does, [anyOf] when one does;
    with no predicate [allOf] accepts every node and [anyOf] none, and
    each is the negation of the other on negated predicates. *)
Theorem allOf_anyOf_semantics (predicates : list FiberPredicate) (node : NodeRef) :
  (allOf predicates node = true <->
   forall p, In p predicates -> p node = true) /\
  (anyOf predicates node = true <->
   exists p, In p predicates /\ p node = true) /\
  allOf [] node = true /\
  anyOf [] node = false /\
  allOf predicates node
  = negb (anyOf (List.map (fun p n => negb (p n)) predicates) node) /\
  (forall more,
      allOf (predicates ++ more) node
      = allOf predicates node && allOf more node) /\
  (forall more,
      anyOf (predicates ++ more) node
      = anyOf predicates node || anyOf more node).
Proof.
  unfold allOf, anyOf. repeat split.
  - intros H. rewrite forallb_forall in H. exact H.
  - intros H. rewrite forallb_forall. exact H.
  - intros H. apply existsb_exists in H. exact H.
  - intros H. apply existsb_exists. exact H.
  - induction predicates as [|p ps IH]; simpl; [reflexivity|].
    rewrite IH. destruct (p node); reflexivity.
  - intros more. apply forallb_app.
  - intros more. apply existsb_app.
Qed.

End Combinators.

End TraversalCollect.

(* ===================================================================== *)
(** * Further properties of the record extraction pipeline *)
(* ===================================================================== *)

Module MessageParserMore.

Import MessageParser ParserSpec TraversalSpec MessageParserProofs.

Lemma includes_In (types : list (string * AttachmentType)) (s : string)
  (t : AttachmentType) :
  includes types s = Some t -> In (s, t) types.
Proof.
  induction types as [|[name t0] types IH]; simpl; [discriminate|].
  destruct (String.eqb_spec name s) as [->|_].
  - intros [= ->]. now left.
  - intros H. right. now apply IH.
Qed.

Lemma includes_validTypes (s : string) (t : AttachmentType) :
  includes validTypes s = Some t <-> s = typeName t.
Proof.
  split.
  - intros H. apply includes_In in H. unfold validTypes in H. simpl in H.
    repeat (destruct H as [H|H]; [injection H as <- <-; reflexivity|]).
    contradiction.
  - intros ->. destruct t; reflexivity.
Qed.

(** The attachment type is one of seven names, each read back as
    itself, and any other value is rejected. *)
Theorem parseAttachmentType_closed_set (type : JsValue) (t : AttachmentType) :
  (parseAttachmentType type = Some t <-> type = JsString (typeName t)) /\
  parseAttachmentType (JsString (typeName t)) = Some t.
Proof.
  assert (Hiff : parseAttachmentType type = Some t <-> type = JsString (typeName t)).
  { unfold parseAttachmentType. destruct type; try (split; discriminate).
    rewrite includes_validTypes. split; [now intros -> | now intros [= ->]]. }
  split; [exact Hiff|]. destruct t; reflexivity.
Qed.

(** X8.  [parseAttachment] succeeds exactly on an object whose [type]
    is one of the seven names; it then carries the fresh identifier, no
    thumbnail, and the octet-stream MIME type unless a string is given.
    Every failure is INVALID_PROPS. *)
Theorem parseAttachment_outcomes (uuid : string) (props : JsValue) :
  match parseAttachment uuid props with
  | ok attachment =>
      isObject props = true /\
      get props "type" = JsString (typeName (att_type attachment)) /\
      att_id attachment = uuid /\
      thumbnailUrl attachment = None /\
      mimeType attachment =
        match get props "mimetype" with
        | JsString m => m
        | _ => "application/octet-stream"
        end
  | err e =>
      error_type e = INVALID_PROPS /\
      (isObject props = false \/
       forall t, get props "type" <> JsString (typeName t))
  end.
Proof.
  unfold parseAttachment. destruct (isObject props); simpl; [|auto].
  destruct (parseAttachmentType (get props "type")) as [t|] eqn:Ht.
  - apply parseAttachmentType_closed_set in Ht. simpl. repeat split; auto.
    destruct (get props "mimetype"); reflexivity.
  - simpl. split; [reflexivity|]. right. intros t Hc.
    apply (parseAttachmentType_closed_set (get props "type") t) in Hc. congruence.
Qed.

(** X9.  The delivery status is read from a table with the keys 0 to 4;
    anything else, a non-number included, is "pending", and "error" is
    never produced. *)
Theorem parseMessageStatus_table (ack : JsValue) :
  parseMessageStatus ack <> error /\
  (forall q, ack = JsNumber (Finite q) ->
             (q == 0 -> parseMessageStatus ack = pending) /\
             (q == 1 -> parseMessageStatus ack = sent) /\
             (q == 2 -> parseMessageStatus ack = delivered) /\
             (q == 3 -> parseMessageStatus ack = read) /\
             (q == 4 -> parseMessageStatus ack = played) /\
             (~ q == 0 -> ~ q == 1 -> ~ q == 2 -> ~ q == 3 -> ~ q == 4 ->
              parseMessageStatus ack = pending))%Q /\
  ((forall q, ack <> JsNumber (Finite q)) -> parseMessageStatus ack = pending).
Proof.
  split; [|split].
  - unfold parseMessageStatus. destruct ack as [| | |n| | | | |]; try discriminate.
    destruct n as [| |q]; try discriminate.
    repeat (destruct (Qeq_bool q _); try discriminate).
  - intros q ->. unfold parseMessageStatus.
    assert (Hb : forall k : Q, (q == k)%Q -> Qeq_bool q k = true)
      by (intros k; apply Qeq_bool_iff).
    assert (Hn : forall k : Q, ~ (q == k)%Q -> Qeq_bool q k = false).
    { intros k Hk. destruct (Qeq_bool q k) eqn:E; [|reflexivity].
      apply Qeq_bool_iff in E. contradiction. }
    assert (Hd : forall a b : Q, (q == a)%Q -> Qeq_bool a b = false ->
                                 Qeq_bool q b = false).
    { intros a b Ha Hab. apply Hn. intros Hq. rewrite Ha in Hq.
      apply Qeq_bool_iff in Hq. congruence. }
    repeat split.
    + intros H. now rewrite (Hb _ H).
    + intros H. now rewrite (Hd 1%Q 0%Q H eq_refl), (Hb _ H)%Q.
    + intros H. now rewrite (Hd 2%Q 0%Q H eq_refl), (Hd 2%Q 1%Q H eq_refl), (Hb _ H)%Q.
    + intros H.
      now rewrite (Hd 3%Q 0%Q H eq_refl), (Hd 3%Q 1%Q H eq_refl), (Hd 3%Q 2%Q H eq_refl), (Hb _ H)%Q.
    + intros H.
      now rewrite (Hd 4%Q 0%Q H eq_refl), (Hd 4%Q 1%Q H eq_refl), (Hd 4%Q 2%Q H eq_refl),
        (Hd 4%Q 3%Q H eq_refl), (Hb _ H)%Q.
    + intros H0 H1 H2 H3 H4.
      now rewrite (Hn _ H0), (Hn _ H1), (Hn _ H2), (Hn _ H3), (Hn _ H4).
  - intros H. unfold parseMessageStatus.
    destruct ack as [| | |n| | | | |]; try reflexivity.
    destruct n as [| |q]; try reflexivity. now destruct (H q).
Qed.

(** X10.  [parseMessage] succeeds exactly on an object whose [id] is a
    string and whose [t] is a number other than NaN; it fails with
    INVALID_PROPS or MISSING_REQUIRED_FIELD and no other tag. *)
Theorem parseMessage_succeeds_iff (uuid : string) (props : JsValue) :
  (isOk (parseMessage uuid props) = true <->
   isObject props = true /\
   (exists idValue, get props "id" = JsString idValue) /\
   (exists t, get props "t" = JsNumber t /\ t <> NaN)) /\
  (isOk (parseMessage uuid props) = false ->
   errorTypeOf (parseMessage uuid props) = Some INVALID_PROPS \/
   errorTypeOf (parseMessage uuid props) = Some MISSING_REQUIRED_FIELD).
Proof.
  split.
  - split.
    + intros H. destruct (parseMessage uuid props) as [m|e] eqn:E; [|discriminate].
      apply parseMessage_ok_inv in E
        as (Hobj & idValue & t & Hid & Ht & Hnan & _).
      split; [exact Hobj|]. split; [now exists idValue | now exists t].
    + intros (Hobj & (idValue & Hid) & (t & Ht & Hnan)).
      destruct (@parseMessage_valid uuid props idValue t Hobj Hid Ht Hnan)
        as (m & -> & _). reflexivity.
  - unfold parseMessage. destruct (isObject props); simpl; [|auto].
    destruct (isNullish (get props "id")); simpl; [auto|].
    destruct (isNullish (get props "t")); simpl; [auto|].
    destruct (get props "id"); simpl; auto.
    destruct (get props "t") as [| | |n| | | | |]; simpl; auto.
    destruct n; simpl; auto; discriminate.
Qed.

(** X11.  [extractMessageFromFiber] reads the "message" property, and
    the "msg" property when "message" is absent or null; with neither it
    fails with MISSING_REQUIRED_FIELD, but a "msg" that is null is
    handed to [parseMessage], which answers INVALID_PROPS. *)
Theorem extractMessageFromFiber_precedence (uuid : string) (node : RawFiberNode) :
  let props := JsObject (memoizedProps node) in
  (isNullish (get props "message") = false ->
   extractMessageFromFiber uuid node = parseMessage uuid (get props "message")) /\
  (isNullish (get props "message") = true ->
   get props "msg" <> JsUndefined ->
   extractMessageFromFiber uuid node = parseMessage uuid (get props "msg")) /\
  (isNullish (get props "message") = true ->
   get props "msg" = JsUndefined ->
   extractMessageFromFiber uuid node =
   err {| error_type := MISSING_REQUIRED_FIELD;
          message := "No message property found in Fiber node props" |}) /\
  (isNullish (get props "message") = true ->
   get props "msg" = JsNull ->
   extractMessageFromFiber uuid node =
   err {| error_type := INVALID_PROPS;
          message := "Message props must be an object" |}).
Proof.
  cbv zeta. unfold extractMessageFromFiber. repeat split.
  - intros H. rewrite H.
    destruct (get (JsObject (memoizedProps node)) "message"); try reflexivity.
    discriminate.
  - intros H Hmsg. rewrite H.
    destruct (get (JsObject (memoizedProps node)) "msg"); try reflexivity.
    now destruct Hmsg.
  - intros H Hmsg. now rewrite H, Hmsg.
  - intros H Hmsg. now rewrite H, Hmsg.
Qed.

Lemma parseAttachments_ids (uuid : string) (mediaData : JsValue) :
  parseAttachments uuid mediaData = [] \/
  exists attachment,
    parseAttachments uuid mediaData = [attachment] /\ att_id attachment = uuid.
Proof.
  unfold parseAttachments, parseAttachment.
  destruct (isNullish mediaData); simpl; [now left|].
  destruct (isObject mediaData); simpl; [|now left].
  destruct (parseAttachmentType (get mediaData "type")); [|now left].
  right. eexists. split; reflexivity.
Qed.

Lemma parseAttachments_no_uuid (uuid uuid' : string) (mediaData : JsValue) :
  parseAttachments uuid mediaData = [] ->
  parseAttachments uuid' mediaData = [].
Proof.
  unfold parseAttachments, parseAttachment.
  destruct (isNullish mediaData); simpl; [reflexivity|].
  destruct (isObject mediaData); simpl; [|reflexivity].
  destruct (parseAttachmentType (get mediaData "type")); [discriminate | reflexivity].
Qed.

(** X12.  The fresh identifier is used for the attachment and for nothing
    else: every attachment of the message carries it, and a message
    without attachment is the same whatever the identifier. *)
Theorem parseMessage_uses_uuid_for_attachment_only
  (uuid : string) (props : JsValue) (m : NormalizedMessage) :
  parseMessage uuid props = ok m ->
  (forall attachment, In attachment (attachments m) -> att_id attachment = uuid) /\
  (attachments m = [] -> forall uuid', parseMessage uuid' props = ok m).
Proof.
  intros H. pose proof H as Hinv.
  apply parseMessage_ok_inv in Hinv as (Hobj & idValue & t & Hid & Ht & Hnan & _ & _ & Hatt & _).
  split.
  - intros a Hin. rewrite Hatt in Hin.
    destruct (parseAttachments_ids uuid (get props "mediaData")) as [E|(b & E & Hb)];
      rewrite E in Hin; [contradiction|].
    destruct Hin as [<-|[]]. exact Hb.
  - intros Hnone uuid'. rewrite Hatt in Hnone.
    pose proof (@parseAttachments_no_uuid uuid uuid' _ Hnone) as Hnone'.
    revert H. unfold parseMessage. rewrite Hobj, Hid, Ht. simpl.
    rewrite Hnone, Hnone'. auto.
Qed.

Lemma parseMessage_uses_uuid_for_attachment_only_witness :
  parseMessage "uuid-1" Fixtures.bareMessageProps = ok Fixtures.bareMessage /\
  parseMessage "uuid-2" Fixtures.bareMessageProps = ok Fixtures.bareMessage.
Proof.
  assert (H : parseMessage "uuid-1" Fixtures.bareMessageProps = ok Fixtures.bareMessage)
    by reflexivity.
  split; [exact H|].
  destruct (@parseMessage_uses_uuid_for_attachment_only
              "uuid-1" Fixtures.bareMessageProps Fixtures.bareMessage H) as (_ & Hany).
  apply Hany. reflexivity.
Defined.

End MessageParserMore.

(* ===================================================================== *)
(** * Properties of the main-world script and of the message guards *)
(* ===================================================================== *)

Module MainWorldProofs.

Import Traversal MessageParser TraversalKeys MainWorld MainWorldSpec Messaging.
Import MessageParserProofs MessageParserMore.

Lemma extractMessageFromFiber_ok_inv (uuid : string) (node : RawFiberNode)
  (m : NormalizedMessage) :
  extractMessageFromFiber uuid node = ok m ->
  exists props, parseMessage uuid props = ok m.
Proof.
  unfold extractMessageFromFiber.
  match goal with
  | |- context [match ?mp with JsUndefined => _ | _ => _ end] =>
      destruct mp eqn:E; try discriminate; intros H; eexists; exact H
  end.
Qed.

Section Extract.

Variable store : FiberStore.
Variable uuids : nat -> string.

Lemma extractLoop_ids (messageNodes : list NodeRef) :
  forall next,
    let result := extractLoop store uuids next messageNodes in
    List.length (fst result) <= List.length messageNodes /\
    next <= snd result /\
    attachmentIds (fst result) = List.map uuids (seq next (snd result - next)).
Proof.
  induction messageNodes as [|node rest IH]; intros next; cbv zeta.
  - simpl. rewrite Nat.sub_diag. repeat split; auto.
  - simpl.
    destruct (extractMessageFromFiber (uuids next) (store node)) as [m|e] eqn:E.
    + apply extractMessageFromFiber_ok_inv in E as (props & Hm).
      apply parseMessage_ok_inv in Hm
        as (_ & idValue & t & _ & _ & _ & _ & _ & Hatt & _).
      destruct (parseAttachments_ids (uuids next) (get props "mediaData"))
        as [Hnone|(a & Hone & Hid)].
      * rewrite Hnone in Hatt. rewrite Hatt.
        specialize (IH next). cbv zeta in IH.
        destruct (extractLoop store uuids next rest) as [messages final].
        simpl in *. rewrite Hatt. simpl.
        destruct IH as (Hl & Hn & Hi). repeat split; auto; lia.
      * rewrite Hone in Hatt. rewrite Hatt.
        specialize (IH (S next)). cbv zeta in IH.
        destruct (extractLoop store uuids (S next) rest) as [messages final].
        simpl in *. rewrite Hatt. simpl.
        destruct IH as (Hl & Hn & Hi). repeat split; try lia.
        rewrite Hi, Hid.
        replace (final - next) with (S (final - S next)) by lia. reflexivity.
    + specialize (IH next). cbv zeta in IH.
      destruct IH as (Hl & Hn & Hi). repeat split; auto; lia.
Qed.

End Extract.

(** X13.  A batch of [extractMessages] holds at most 500 messages, and the
    identifiers of its attachments are, in order, the identifiers
    [crypto.randomUUID()] returned during the batch, one call each: no
    identifier is used twice as long as the generator does not repeat
    itself. *)
Theorem extractMessages_batch
  (store : FiberStore) (uuids : nat -> string) (fuel next : nat)
  (fiber : NodeRef) (messages : list NormalizedMessage) (final : nat) :
  extractMessages store uuids fuel next fiber = Some (messages, final) ->
  List.length messages <= 500 /\
  next <= final /\
  attachmentIds messages = List.map uuids (seq next (final - next)) /\
  ((forall i j, uuids i = uuids j -> i = j) -> NoDup (attachmentIds messages)).
Proof.
  unfold extractMessages. intros H.
  destruct (collectNodes store (byComponentName store "Message") 500 fuel fiber)
    as [nodes|] eqn:E; [|discriminate].
  injection H as H.
  pose proof (extractLoop_ids store uuids nodes next) as Hloop. cbv zeta in Hloop.
  rewrite H in Hloop. simpl in Hloop. destruct Hloop as (Hl & Hn & Hi).
  unfold collectNodes, collectWalk in E.
  destruct (collect store (byComponentName store "Message") 500 fuel (Some fiber)
              {| results := []; tested := [] |}) as [w|] eqn:Ew; [|discriminate].
  injection E as <-.
  destruct (@TraversalCollect.collect_adds_matches
              store (byComponentName store "Message") 500 fuel _ _ _ Ew)
    as (_ & _ & _ & Hlen).
  simpl in Hlen. repeat split; auto; [lia|].
  intros Hinj. rewrite Hi. apply Stdlib.Lists.Finite.Injective_map_NoDup; [exact Hinj|].
  apply seq_NoDup.
Qed.

(** X14.  [getFiberFromElement] tries the three prefixes in the order
    "__reactFiber$", "__reactInternalInstance$", "__reactProps$": it
    returns the fiber held for the first prefix for which the element
    holds one, every earlier prefix holding none, and null exactly when
    the element holds a fiber for none of the three.  For each prefix
    only the first key that starts with it counts, and it holds a fiber
    when the value under it is an object. *)
Theorem getFiberFromElement_prefix_order (element : list (string * JsValue)) :
  getReactFiberPrefixes
  = [ "__reactFiber$"; "__reactInternalInstance$"; "__reactProps$" ] /\
  (forall fiber,
      getFiberFromElement element = Some fiber <->
      exists before prefix after,
        getReactFiberPrefixes = before ++ prefix :: after /\
        (forall earlier, In earlier before -> holdsNoFiber element earlier) /\
        holdsFiber element prefix fiber) /\
  (getFiberFromElement element = None <->
   forall prefix, In prefix getReactFiberPrefixes -> holdsNoFiber element prefix).
Proof.
  split; [reflexivity|].
  unfold getFiberFromElement. cbv zeta.
  generalize getReactFiberPrefixes as prefixes.
  induction prefixes as [|p rest (IHsome & IHnone)].
  - split.
    + intros fiber. split; [discriminate|].
      intros (before & prefix & after & E & _). destruct before; discriminate.
    + split; [intros _ prefix [] | reflexivity].
  - cbn [List.map].
    match type of IHnone with
    | ?l = None <-> _ => set (tail := l) in *
    end.
    assert (Hcases :
              (exists k, findFiberPropertyKey (List.map fst element) p = Some k /\
                         isObject (get (JsObject element) k) = true) \/
              holdsNoFiber element p).
    { unfold holdsNoFiber.
      destruct (findFiberPropertyKey (List.map fst element) p) as [k|].
      - destruct (isObject (get (JsObject element) k)) eqn:O.
        + left. now exists k.
        + right. intros k' [= <-]. exact O.
      - right. intros k' [=]. }
    destruct Hcases as [(k & F & O)|Hno].
    + rewrite F, O. split.
      * intros fiber. split.
        -- intros [= <-]. exists [], p, rest. split; [reflexivity|].
           split; [intros earlier []|]. now exists k.
        -- intros (before & prefix & after & E & Hbefore & (k' & F' & G' & O')).
           destruct before as [|e before]; injection E as <- E.
           ++ rewrite F in F'. injection F' as <-. now rewrite G'.
           ++ pose proof (Hbefore p (or_introl eq_refl) k F) as Hfalse.
              rewrite O in Hfalse. discriminate.
      * split; [discriminate|]. intros H.
        pose proof (H p (or_introl eq_refl) k F) as Hfalse.
        rewrite O in Hfalse. discriminate.
    + assert (Hstep :
                match findFiberPropertyKey (List.map fst element) p with
                | Some fiberKey =>
                    if isObject (get (JsObject element) fiberKey)
                    then Some (get (JsObject element) fiberKey) else tail
                | None => tail
                end = tail).
      { destruct (findFiberPropertyKey (List.map fst element) p) as [k|] eqn:F;
          [|reflexivity].
        now rewrite (Hno k F). }
      rewrite Hstep. split.
      * intros fiber. rewrite IHsome. split.
        -- intros (before & prefix & after & E & Hbefore & Hfiber).
           exists (p :: before), prefix, after. split; [now rewrite E|].
           split; [|exact Hfiber]. intros earlier [<-|Hin]; auto.
        -- intros (before & prefix & after & E & Hbefore & Hfiber).
           destruct before as [|e before]; injection E as <- E.
           ++ destruct Hfiber as (k & F & G & O).
              rewrite <- G, (Hno k F) in O. discriminate.
           ++ exists before, prefix, after. split; [exact E|].
              split; [|exact Hfiber]. intros earlier Hin. apply Hbefore. now right.
      * rewrite IHnone. split.
        -- intros H prefix [<-|Hin]; auto.
        -- intros H prefix Hin. apply H. now right.
Qed.

(** A first key with the prefix that holds no object hides a later key
    with the same prefix that holds the fiber. *)
Example getFiberFromElement_only_first_key_per_prefix :
  getFiberFromElement
    [ ("__reactFiber$a", JsNumber (Finite 1));
      ("__reactFiber$b", JsObject [("tag", JsNumber (Finite 5))]) ]
  = None.
Proof. reflexivity. Qed.

(** An element whose "__reactFiber$" key holds no object: the fiber
    under the next prefix is returned. *)
Example getFiberFromElement_falls_back_to_next_prefix :
  getFiberFromElement
    [ ("__reactProps$a", JsObject [("children", JsNull)]);
      ("__reactFiber$a", JsNull);
      ("__reactInternalInstance$a", JsObject [("tag", JsNumber (Finite 5))]) ]
  = Some (JsObject [("tag", JsNumber (Finite 5))]).
Proof. reflexivity. Qed.

(** [isWindowMessage] accepts exactly the objects whose [source]
    is the string "whatsapp-scraper" and that have an [event] key,
    whatever the value under that key. *)
Theorem isWindowMessage_iff (data : JsValue) :
  isWindowMessage data = true <->
  exists fields,
    data = JsObject fields /\
    lookup fields "source" = Some (JsString "whatsapp-scraper") /\
    exists event, lookup fields "event" = Some event.
Proof.
  unfold isWindowMessage. split.
  - destruct data; simpl; try discriminate.
    unfold isString, hasKey, get.
    destruct (lookup fields "source") as [[| | | |s| | | |]|] eqn:Es;
      simpl; try discriminate.
    destruct (String.eqb_spec s "whatsapp-scraper") as [->|]; simpl; [|discriminate].
    destruct (lookup fields "event") as [event|] eqn:E; [|discriminate].
    intros _. exists fields. split; [reflexivity|]. split; [exact Es|].
    now exists event.
  - intros (fields & -> & Hs & event & He). simpl.
    unfold isString, hasKey, get. now rewrite Hs, He.
Qed.

(** X15.  The [message] listener starts a scrape exactly for a window
    message from the same window whose event has the type
    "SCRAPE_COMMAND" and a payload, with the payload's scroll depth; and
    it throws on a window message whose event is null or undefined, or
    is a scrape command without payload: [isWindowMessage] does not
    look at the event. *)
Theorem onMessage_outcomes (fromWindow : bool) (data : JsValue) :
  let event := get data "event" in
  (forall scrollDepth,
      onMessage fromWindow data = Scrape scrollDepth <->
      fromWindow = true /\
      isWindowMessage data = true /\
      isNullish event = false /\
      isScrapeCommand event = true /\
      isNullish (get event "payload") = false /\
      scrollDepth = get (get event "payload") "scrollDepth") /\
  (onMessage fromWindow data = TypeError <->
   fromWindow = true /\
   isWindowMessage data = true /\
   (isNullish event = true \/
    (isScrapeCommand event = true /\ isNullish (get event "payload") = true))).
Proof.
  cbv zeta. unfold onMessage.
  destruct fromWindow; simpl.
  2:{ split; [intros d|]; split; try discriminate; intros (H & _); discriminate. }
  destruct (isWindowMessage data); simpl.
  2:{ split; [intros d|]; split; try discriminate; intros (_ & H & _); discriminate. }
  destruct (isNullish (get data "event")) eqn:Hn.
  { split; [intros d|]; split; try discriminate; auto.
    intros (_ & _ & H & _); discriminate. }
  destruct (isScrapeCommand (get data "event")) eqn:Hs.
  2:{ split; [intros d|]; split; try discriminate.
      - intros (_ & _ & _ & H & _); discriminate.
      - intros (_ & _ & [H|(H & _)]); discriminate. }
  destruct (isNullish (get (get data "event") "payload")) eqn:Hp.
  - split; [intros d|]; split; try discriminate; auto.
    intros (_ & _ & _ & _ & H & _); discriminate.
  - split; [intros d|]; split; try discriminate.
    + intros [= <-]. repeat split.
    + intros (_ & _ & _ & _ & _ & ->). reflexivity.
    + intros (_ & _ & [H|(_ & H)]); discriminate.
Qed.

Example onMessage_null_event_throws :
  onMessage true
    (JsObject [("source", JsString "whatsapp-scraper"); ("event", JsNull)])
  = TypeError.
Proof. reflexivity. Qed.

End MainWorldProofs.

(* ===================================================================== *)
(** * Further properties of the drift detector *)
(* ===================================================================== *)

Module VersionGuardMore.

Import VersionGuard VersionGuardSpec VersionGuardSession FingerprintSpec.
Import VersionGuardProofs.

Local Open Scope Z_scope.

Lemma hexValue_append (s : string) :
  forall acc c,
    hexValue acc (s ++ String c EmptyString) = hexValue acc s * 16 + digitValue c.
Proof.
  induction s as [|c' s IH]; intros acc c; simpl; [reflexivity|]. apply IH.
Qed.

Lemma digitValue_hexDigit (d : Z) :
  0 <= d < 16 ->
  exists c, hexDigit d = String c EmptyString /\ digitValue c = d /\ c <> "-"%char.
Proof.
  intros Hd. unfold hexDigit. eexists. split; [reflexivity|].
  assert (Hcases : d = 0 \/ d = 1 \/ d = 2 \/ d = 3 \/ d = 4 \/ d = 5 \/ d = 6 \/
                   d = 7 \/ d = 8 \/ d = 9 \/ d = 10 \/ d = 11 \/ d = 12 \/
                   d = 13 \/ d = 14 \/ d = 15) by lia.
  repeat (destruct Hcases as [->|Hcases];
          [split; [reflexivity | discriminate]|]).
  subst d. split; [reflexivity | discriminate].
Qed.

Lemma hexDigits_value (fuel : nat) :
  forall n,
    0 <= n < 16 ^ (Z.of_nat fuel + 1) ->
    hexValue 0 (hexDigits fuel n) = n /\
    exists c rest, hexDigits fuel n = String c rest /\ c <> "-"%char.
Proof.
  induction fuel as [|fuel IH]; intros n Hn.
  - change (16 ^ (Z.of_nat 0 + 1)) with 16 in Hn. cbn [hexDigits].
    rewrite Z.mod_small by lia.
    destruct (digitValue_hexDigit Hn) as (c & -> & Hv & Hc). cbn [hexValue].
    rewrite Hv. split; [lia|]. now exists c, EmptyString.
  - cbn [hexDigits]. destruct (Z.ltb_spec n 16) as [Hsmall|Hbig].
    + destruct (@digitValue_hexDigit n ltac:(lia)) as (c & -> & Hv & Hc).
      cbn [hexValue]. rewrite Hv. split; [lia|]. now exists c, EmptyString.
    + assert (Hq : 0 <= n / 16 < 16 ^ (Z.of_nat fuel + 1)).
      { split; [apply Z.div_pos; lia|].
        apply Z.div_lt_upper_bound; [lia|].
        replace (Z.of_nat (S fuel) + 1) with (Z.succ (Z.of_nat fuel + 1)) in Hn by lia.
        rewrite Z.pow_succ_r in Hn by lia. lia. }
      destruct (IH _ Hq) as (Hv & c & rest & Hs & Hc).
      destruct (@digitValue_hexDigit (n mod 16)) as (c' & Hd & Hv' & _).
      { apply Z.mod_pos_bound. lia. }
      rewrite Hd, hexValue_append, Hv, Hv'. split.
      * pose proof (Z.div_mod n 16). lia.
      * rewrite Hs. simpl. now exists c, (rest ++ String c' EmptyString)%string.
Qed.

Lemma fold_step_range (chars : list JsString16) :
  forall acc, - 2 ^ 31 <= acc < 2 ^ 31 ->
              - 2 ^ 31 <= fold_left step chars acc < 2 ^ 31.
Proof.
  induction chars as [|char chars IH]; intros acc Hacc; simpl; [exact Hacc|].
  apply IH. unfold step, bor. apply ToInt32_range.
Qed.

Lemma toString16_reads_back (h : Z) :
  - 2 ^ 31 <= h < 2 ^ 31 -> fingerprintValue (toString16 h) = h.
Proof.
  intros Hh. unfold toString16. change (2 ^ 31) with 2147483648 in Hh.
  destruct (Z.ltb_spec h 0) as [Hneg|Hpos].
  - destruct (@hexDigits_value 8 (- h)) as (Hv & _).
    { change (16 ^ (Z.of_nat 8 + 1)) with 68719476736. lia. }
    change (fingerprintValue ("-" ++ hexDigits 8 (- h))%string)
      with (- hexValue 0 (hexDigits 8 (- h))).
    rewrite Hv. lia.
  - destruct (@hexDigits_value 8 h) as (Hv & c & rest & Hs & Hc).
    { change (16 ^ (Z.of_nat 8 + 1)) with 68719476736. lia. }
    rewrite Hs in *. unfold fingerprintValue.
    destruct c as [[] [] [] [] [] [] [] []]; try exact Hv.
    now destruct Hc.
Qed.

Lemma join_joined (parts : list JsString16) : join parts = joined parts.
Proof.
  destruct parts as [|first others]; [reflexivity|].
  revert first. induction others as [|second others IH]; intros first.
  - simpl. now rewrite app_nil_r.
  - change (join (first :: second :: others))
      with (first ++ [124] ++ join (second :: others)).
    rewrite IH. reflexivity.
Qed.

Lemma leadSurrogate_isHighSurrogate (u : Z) : leadSurrogate u = isHighSurrogate u.
Proof.
  unfold leadSurrogate, isHighSurrogate.
  pose proof (Z.div_mod u 1024 ltac:(lia)) as Hdm.
  pose proof (Z.mod_pos_bound u 1024 ltac:(lia)) as Hm.
  destruct (Z.eqb_spec (u / 1024) 54), (Z.leb_spec 55296 u), (Z.leb_spec u 56319);
    simpl; try reflexivity; lia.
Qed.

Lemma trailSurrogate_isLowSurrogate (u : Z) : trailSurrogate u = isLowSurrogate u.
Proof.
  unfold trailSurrogate, isLowSurrogate.
  pose proof (Z.div_mod u 1024 ltac:(lia)) as Hdm.
  pose proof (Z.mod_pos_bound u 1024 ltac:(lia)) as Hm.
  destruct (Z.eqb_spec (u / 1024) 55), (Z.leb_spec 56320 u), (Z.leb_spec u 57343);
    simpl; try reflexivity; lia.
Qed.

(** The first code units of the elements of [Array.from(str)] are the
    code units of [str] without the second half of each pair. *)
Lemma charCodes_leadingUnits_fuel (n : nat) :
  forall str, (List.length str <= n)%nat -> charCodes str = leadingUnits str.
Proof.
  unfold charCodes, leadingUnits.
  induction n as [|n IH]; intros str Hlen.
  - destruct str; [reflexivity | simpl in Hlen; lia].
  - destruct str as [|u [|v rest]]; [reflexivity | reflexivity |].
    change (Array_from (u :: v :: rest))
      with (if isHighSurrogate u && isLowSurrogate v
            then [u; v] :: Array_from rest
            else [u] :: Array_from (v :: rest)).
    cbn [dropTrails andb].
    rewrite <- leadSurrogate_isHighSurrogate, <- trailSurrogate_isLowSurrogate.
    destruct (leadSurrogate u) eqn:Hu; cbn [andb].
    + destruct (trailSurrogate v) eqn:Hv.
      * cbn [List.map charCodeAt0 hd]. f_equal. apply IH. simpl in Hlen. lia.
      * cbn [List.map charCodeAt0 hd]. f_equal.
        rewrite IH by (simpl in *; lia). cbn [dropTrails andb]. reflexivity.
    + cbn [List.map charCodeAt0 hd]. f_equal.
      rewrite IH by (simpl in *; lia). cbn [dropTrails andb]. reflexivity.
Qed.

Lemma dropTrails_without_pair (str : JsString16) :
  hasSurrogatePair str = false ->
  forall afterLead,
    (afterLead = true ->
     match str with
     | [] => True
     | u :: _ => trailSurrogate u = false
     end) ->
    dropTrails afterLead str = str.
Proof.
  induction str as [|u rest IH]; intros Hpair afterLead Hhead; [reflexivity|].
  cbn [hasSurrogatePair] in Hpair. apply orb_false_iff in Hpair.
  destruct Hpair as (Hhere & Hrest).
  cbn [dropTrails].
  assert (Hkeep : afterLead && trailSurrogate u = false).
  { destruct afterLead; [|reflexivity]. now rewrite Hhead. }
  rewrite Hkeep. f_equal. apply IH; [exact Hrest|].
  intros Hlead. destruct rest as [|v rest]; [exact I|].
  rewrite Hlead in Hhere. exact Hhere.
Qed.

(** C9 (as amended).  For every sequence of probe segments, the integer the
    code folds with [((acc << 5) - acc + code) | 0] is the polynomial
    rolling hash [acc = acc*31 + charCode], wrapped to a 32-bit signed
    integer at each step, over the char codes of the delimiter-joined
    segment string without the second half of each surrogate pair; it is
    a 32-bit signed integer, and the fingerprint denotes it in base 16.
    On every input whose joined string has no surrogate pair, this is the
    rolling hash over all the char codes of the string. *)
Theorem generateDomHash_rolling_hash_of_leading_units (segments : list JsString16) :
  let str := joined segments in
  hashOfParts segments = rollingHash (leadingUnits str) /\
  - 2 ^ 31 <= hashOfParts segments < 2 ^ 31 /\
  fingerprintValue (generateDomHash segments) = rollingHash (leadingUnits str) /\
  (hasSurrogatePair str = false ->
   hashOfParts segments = rollingHash str /\
   fingerprintValue (generateDomHash segments) = rollingHash str).
Proof.
  cbv zeta.
  assert (Hhash : hashOfParts segments = rollingHash (leadingUnits (joined segments))).
  { unfold hashOfParts, rollingHash. rewrite fold_step_rolling, join_joined.
    change (List.map charCodeAt0 (Array_from (joined segments)))
      with (charCodes (joined segments)).
    now rewrite (@charCodes_leadingUnits_fuel _ _ (le_n _)). }
  assert (Hrange : - 2 ^ 31 <= hashOfParts segments < 2 ^ 31).
  { unfold hashOfParts. apply fold_step_range. lia. }
  assert (Hread : fingerprintValue (generateDomHash segments)
                  = rollingHash (leadingUnits (joined segments))).
  { unfold generateDomHash. rewrite toString16_reads_back by exact Hrange.
    exact Hhash. }
  split; [exact Hhash|]. split; [exact Hrange|]. split; [exact Hread|].
  intros Hpair.
  assert (Hsame : leadingUnits (joined segments) = joined segments).
  { unfold leadingUnits. apply dropTrails_without_pair; [exact Hpair | discriminate]. }
  rewrite Hsame in Hhash, Hread. now split.
Qed.

(** C9, as stated, fails.  The one segment is "div:" followed by the
    character U+1F600, the surrogate pair D83D DE00, and ":": a [div]
    whose only class is that character.  [Array.from] yields the pair as
    one element and [charCodeAt(0)] reads its first half only, so the
    code's hash is not the rolling hash over the seven char codes of the
    joined string, and the fingerprint is not its rendering. *)
Lemma generateDomHash_skips_trail_surrogate :
  let segments := [[100; 105; 118; 58; 55357; 56832; 58]] in
  joined segments = [100; 105; 118; 58; 55357; 56832; 58] /\
  rollingHash (joined segments) = 1727779022 /\
  hashOfParts segments = -1329795290 /\
  generateDomHash segments = "-4f4310da"%string /\
  fingerprintValue (generateDomHash segments) = -1329795290.
Proof. cbv zeta. repeat split; vm_compute; reflexivity. Qed.

(** X22.  A fingerprint can be read back: the hexadecimal rendering of a
    32-bit hash denotes that hash, so two documents have the same
    fingerprint exactly when their hashes are equal. *)
Theorem fingerprint_reads_back (parts parts' : list JsString16) :
  fingerprintValue (generateDomHash parts) = hashOfParts parts /\
  (generateDomHash parts = generateDomHash parts' <->
   hashOfParts parts = hashOfParts parts').
Proof.
  assert (Hback : forall h, - 2 ^ 31 <= h < 2 ^ 31 ->
                            fingerprintValue (toString16 h) = h).
  { intros h Hh. unfold toString16. change (2 ^ 31) with 2147483648 in Hh.
    destruct (Z.ltb_spec h 0) as [Hneg|Hpos].
    - destruct (@hexDigits_value 8 (- h)) as (Hv & _).
      { change (16 ^ (Z.of_nat 8 + 1)) with 68719476736. lia. }
      change (fingerprintValue ("-" ++ hexDigits 8 (- h))%string)
        with (- hexValue 0 (hexDigits 8 (- h))).
      rewrite Hv. lia.
    - destruct (@hexDigits_value 8 h) as (Hv & c & rest & Hs & Hc).
      { change (16 ^ (Z.of_nat 8 + 1)) with 68719476736. lia. }
      rewrite Hs in *. unfold fingerprintValue.
      destruct c as [[] [] [] [] [] [] [] []]; try exact Hv.
      now destruct Hc. }
  assert (Hrange : forall p, - 2 ^ 31 <= hashOfParts p < 2 ^ 31).
  { intros p. unfold hashOfParts. apply fold_step_range. lia. }
  split; [apply Hback, Hrange|]. unfold generateDomHash. split.
  - intros H. rewrite <- (Hback _ (Hrange parts)), <- (Hback _ (Hrange parts')).
    now rewrite H.
  - now intros ->.
Qed.

Section Session.

Lemma getStored_putStored (items : list (string * string)) (key value : string) :
  getStored (putStored items key value) key = Some value /\
  (forall other, other <> key ->
                 getStored (putStored items key value) other = getStored items other).
Proof.
  induction items as [|[k v] items [IHsame IHother]]; simpl.
  - rewrite String.eqb_refl. split; [reflexivity|].
    intros other Hne. destruct (String.eqb_spec key other); [congruence | reflexivity].
  - destruct (String.eqb_spec k key) as [->|Hk]; simpl.
    + rewrite String.eqb_refl. split; [reflexivity|].
      intros other Hne. destruct (String.eqb_spec key other); [congruence | reflexivity].
    + destruct (String.eqb_spec k key); [congruence|]. split; [exact IHsame|].
      intros other Hne. destruct (String.eqb_spec k other); [reflexivity|].
      now apply IHother.
Qed.

(** X23.  The first [check] of a guard with no stored hash stores the
    current fingerprint and reports compatible; every later [check]
    reports compatible exactly when the fingerprint is the stored one,
    and never changes the stored one: after a mismatch the guard stays
    incompatible with the changed document until [updateHash] is
    called. *)
Theorem check_stores_once_then_compares
  (parts parts' : list JsString16) (guard : Guard) :
  (storedHash guard = None ->
   let first := check parts guard in
   isCompatible (fst first) = true /\
   currentHash (fst first) = generateDomHash parts /\
   getStoredHash (snd first) = Some (generateDomHash parts) /\
   isCompatible (fst (check parts (snd first))) = true) /\
  (forall stored,
      storedHash guard = Some stored ->
      snd (check parts' guard) = guard /\
      (isCompatible (fst (check parts' guard)) = true <->
       generateDomHash parts' = stored)).
Proof.
  split.
  - intros Hnone. cbv zeta. unfold check. rewrite Hnone. simpl.
    rewrite String.eqb_refl. auto.
  - intros stored Hs. unfold check. rewrite Hs. simpl.
    split; [reflexivity|]. rewrite String.eqb_eq.
    split; intros H; now symmetry.
Qed.

(** X24.  [updateHash] persists the hash when the storage can be
    written: a guard created later on that storage starts from it.  When
    writing throws, the guard keeps the hash in memory only and the
    storage is left as it was; when reading throws, a new guard starts
    with no hash. *)
Theorem updateHash_persists_when_storage_allows (hash : string) (guard : Guard) :
  getStoredHash (updateHash hash guard) = Some hash /\
  (setItemThrows (storage guard) = false ->
   getItemThrows (storage guard) = false ->
   getStoredHash (createVersionGuard (storage (updateHash hash guard))) = Some hash) /\
  (setItemThrows (storage guard) = true ->
   storage (updateHash hash guard) = storage guard) /\
  (forall localStorage,
      getItemThrows localStorage = true ->
      getStoredHash (createVersionGuard localStorage) = None).
Proof.
  unfold updateHash, createVersionGuard, getStoredHash, setItem, getItem; simpl.
  split; [reflexivity|]. split; [|split].
  - intros -> Hget. simpl. rewrite Hget.
    apply getStored_putStored.
  - intros ->. reflexivity.
  - intros localStorage ->. reflexivity.
Qed.

End Session.

Section Strings.

Lemma Array_from_concat_fuel (n : nat) :
  forall str,
    (List.length str <= n)%nat ->
    List.concat (Array_from str) = str /\
    Forall (fun char => exists u rest, char = u :: rest /\ (List.length rest <= 1)%nat)
           (Array_from str) /\
    ((forall u, In u str -> isHighSurrogate u = false) ->
     List.map charCodeAt0 (Array_from str) = str).
Proof.
  induction n as [|n IH]; intros str Hlen.
  - destruct str; [|simpl in Hlen; lia]. simpl. repeat split; auto.
  - destruct str as [|u [|v rest]].
    + simpl. repeat split; auto.
    + simpl. repeat split; auto. constructor; [|constructor].
      exists u, []. split; [reflexivity | simpl; lia].
    + change (Array_from (u :: v :: rest))
        with (if isHighSurrogate u && isLowSurrogate v
              then [u; v] :: Array_from rest
              else [u] :: Array_from (v :: rest)).
      destruct (isHighSurrogate u && isLowSurrogate v) eqn:Hpair.
      * destruct (IH rest) as (Hc & Hf & _); [simpl in Hlen; lia|].
        split; [cbn [List.concat app]; now rewrite Hc|]. split.
        -- constructor; [|exact Hf]. exists u, [v]. split; [reflexivity | simpl; lia].
        -- intros Hno. rewrite (Hno u) in Hpair by now left. discriminate.
      * destruct (IH (v :: rest)) as (Hc & Hf & Hm); [simpl in *; lia|].
        split; [cbn [List.concat app]; now rewrite Hc|]. split.
        -- constructor; [|exact Hf]. exists u, []. split; [reflexivity | simpl; lia].
        -- intros Hno. cbn [List.map]. rewrite Hm; [reflexivity|].
           intros w Hw. apply Hno. now right.
Qed.

(** X25.  [Array.from] cuts a string into pieces of one or two code
    units that put end to end give the string back; on a string with no
    high surrogate every piece is one unit, so the hash consumes each
    code unit of the joined segments. *)
Theorem Array_from_splits_the_string (str : JsString16) :
  List.concat (Array_from str) = str /\
  Forall (fun char => exists u rest, char = u :: rest /\ (List.length rest <= 1)%nat)
         (Array_from str) /\
  ((forall u, In u str -> isHighSurrogate u = false) ->
   charCodes str = str /\
   fold_left step (Array_from str) 0 =
   fold_left (fun acc code => wrapSigned32 (acc * 31 + code)) str 0).
Proof.
  destruct (@Array_from_concat_fuel (List.length str) str (le_n _)) as (Hc & Hf & Hm).
  split; [exact Hc|]. split; [exact Hf|].
  intros Hno. unfold charCodes. split; [now apply Hm|].
  rewrite fold_step_rolling. now rewrite (Hm Hno).
Qed.

End Strings.

End VersionGuardMore.

(* ===================================================================== *)
(** * Properties of the motion profile *)
(* ===================================================================== *)

Module ScrollerProofs.

Import Scroller ScrollerSpec.

Local Open Scope Q_scope.

Lemma ease_polynomial (t : Q) :
  ease t == (126 # 100) * t - (78 # 100) * (t * t) + (52 # 100) * (t * t * t).
Proof. unfold ease, cubicBezier. ring. Qed.

Lemma square_nonneg (x : Q) : 0 <= x * x.
Proof.
  destruct (Qlt_le_dec x 0) as [Hneg|Hpos].
  - setoid_replace (x * x) with ((- x) * (- x)) by ring.
    apply Qmult_le_0_compat; lra.
  - apply Qmult_le_0_compat; lra.
Qed.

Lemma ease_monotone (t1 t2 : Q) : t1 <= t2 -> ease t1 <= ease t2.
Proof.
  intros Hle.
  assert (Hdiff :
    ease t2 - ease t1 ==
    (t2 - t1) * ((39 # 100) * ((t1 + t2 - 1) * (t1 + t2 - 1))
                 + (13 # 100) * ((t1 - t2) * (t1 - t2)) + (87 # 100))).
  { rewrite !ease_polynomial. ring. }
  pose proof (square_nonneg (t1 + t2 - 1)) as H1.
  pose proof (square_nonneg (t1 - t2)) as H2.
  assert (Hpos : 0 <= (t2 - t1) * ((39 # 100) * ((t1 + t2 - 1) * (t1 + t2 - 1))
                                   + (13 # 100) * ((t1 - t2) * (t1 - t2)) + (87 # 100))).
  { apply Qmult_le_0_compat; lra. }
  lra.
Qed.

(** X26.  The easing curve starts at 0, ends at 1, never decreases, stays
    within [0, 1] on [0, 1], and is symmetric about the middle of the
    motion. *)
Theorem ease_in_out_profile (t t' : Q) :
  ease 0 == 0 /\
  ease 1 == 1 /\
  (t <= t' -> ease t <= ease t') /\
  (0 <= t -> t <= 1 -> 0 <= ease t /\ ease t <= 1) /\
  ease (1 - t) == 1 - ease t /\
  (forall p0 p1 p2 p3,
      cubicBezier 0 p0 p1 p2 p3 == p0 /\ cubicBezier 1 p0 p1 p2 p3 == p3).
Proof.
  assert (H0 : ease 0 == 0) by (rewrite ease_polynomial; ring).
  assert (H1 : ease 1 == 1) by (rewrite ease_polynomial; ring).
  split; [exact H0|]. split; [exact H1|]. split; [apply ease_monotone|]. split.
  - intros Hlo Hhi.
    pose proof (ease_monotone Hlo). pose proof (ease_monotone Hhi). lra.
  - split.
    + rewrite !ease_polynomial. ring.
    + intros p0 p1 p2 p3. unfold cubicBezier. split; ring.
Qed.

(** [jitter(base, variance)] stays within [variance] of [base]. *)
Theorem jitter_within_variance (base variance random : Q) :
  0 <= random -> random < 1 -> 0 <= variance ->
  base - variance <= jitter base variance random /\
  jitter base variance random <= base + variance /\
  (0 < variance -> jitter base variance random < base + variance).
Proof.
  intros H0 H1 Hv. unfold jitter.
  assert (Heq : (random - (1 # 2)) * 2 * variance == 2 * (random * variance) - variance)
    by ring.
  assert (Hlo : 0 <= random * variance) by (apply Qmult_le_0_compat; lra).
  assert (Hhi : random * variance <= 1 * variance)
    by (apply Qmult_le_compat_r; lra).
  repeat split; try lra.
  intros Hpos.
  assert (random * variance < 1 * variance) by (apply Qmult_lt_compat_r; lra).
  lra.
Qed.

Lemma jitter_within_variance_witness :
  0 <= 1 # 4 /\ 1 # 4 < 1 /\ 0 <= 100 /\
  300 <= jitter 400 100 (1 # 4) /\ jitter 400 100 (1 # 4) < 500.
Proof.
  assert (H0 : 0 <= 1 # 4) by (unfold Qle; simpl; lia).
  assert (H1 : 1 # 4 < 1) by (unfold Qlt; simpl; lia).
  assert (Hv : 0 <= 100) by (unfold Qle; simpl; lia).
  split; [exact H0|]. split; [exact H1|]. split; [exact Hv|].
  destruct (@jitter_within_variance 400 100 (1 # 4) H0 H1 Hv) as (Hlo & _ & Hhi).
  split; [exact Hlo|]. apply Hhi. unfold Qlt; simpl; lia.
Defined.

Section Motion.

Variable assign : Q -> Q.
Variable startPosition targetDistance : Q.
Variable direction : Direction.
Variable randomDistance randomDuration startTime : Q.

Hypothesis randomDuration_range : 0 <= randomDuration /\ randomDuration < 1.

Let duration_ : Q := scrollDuration randomDuration.
Let progress : Q -> Q := progressAt randomDuration startTime.
Let position : Q -> Q :=
  positionAt startPosition targetDistance direction randomDistance randomDuration
             startTime.
Let target : Q :=
  startPosition + sign direction * actualDistance targetDistance randomDistance.

Lemma duration_positive : 300 <= duration_ /\ duration_ < 500.
Proof.
  destruct randomDuration_range as [H0 H1].
  destruct (@jitter_within_variance 400 100 randomDuration H0 H1) as (Hlo & _ & Hhi);
    [lra|].
  unfold duration_, scrollDuration. split; [lra | apply Hhi; lra].
Qed.

Lemma progress_before (currentTime : Q) :
  currentTime - startTime < duration_ ->
  progress currentTime == (currentTime - startTime) / duration_ /\
  progress currentTime < 1 /\
  Qle_bool 1 (progress currentTime) = false.
Proof.
  intros Hlt. destruct duration_positive as [Hpos _].
  assert (Hfrac : (currentTime - startTime) / duration_ < 1).
  { apply Qlt_shift_div_r; lra. }
  unfold progress, progressAt. fold duration_.
  destruct (Q.min_spec ((currentTime - startTime) / duration_) 1) as [[I E]|[I E]];
    [|lra].
  split; [exact E|]. split; [lra|].
  destruct (Qle_bool 1 _) eqn:Hb; [|reflexivity].
  apply Qle_bool_iff in Hb. lra.
Qed.

Lemma progress_after (currentTime : Q) :
  duration_ <= currentTime - startTime ->
  progress currentTime == 1 /\ Qle_bool 1 (progress currentTime) = true.
Proof.
  intros Hge. destruct duration_positive as [Hpos _].
  assert (Hfrac : 1 <= (currentTime - startTime) / duration_).
  { apply Qle_shift_div_l; lra. }
  unfold progress, progressAt. fold duration_.
  destruct (Q.min_spec ((currentTime - startTime) / duration_) 1) as [[I E]|[I E]];
    [lra|].
  split; [exact E|]. apply Qle_bool_iff. lra.
Qed.

Lemma position_ease (currentTime : Q) :
  position currentTime ==
  startPosition
  + sign direction * actualDistance targetDistance randomDistance
    * ease (progress currentTime).
Proof. reflexivity. Qed.

Lemma ease_wd (a b : Q) : a == b -> ease a == ease b.
Proof. intros H. rewrite !ease_polynomial. now rewrite H. Qed.

Lemma animate_finishes (before after : list Q) (finish : Q) :
  (forall t, In t before -> t - startTime < duration_) ->
  duration_ <= finish - startTime ->
  forall scrollTop,
    animate assign startPosition targetDistance direction randomDistance
            randomDuration startTime (before ++ finish :: after) scrollTop
    = Some (assign (position finish)).
Proof.
  intros Hbefore Hfinish.
  induction before as [|t before IH]; intros scrollTop; simpl.
  - destruct (progress_after Hfinish) as [_ Hb]. unfold progress in Hb.
    now rewrite Hb.
  - destruct (@progress_before t) as (_ & _ & Hb); [apply Hbefore; now left|].
    unfold progress in Hb. rewrite Hb. simpl. apply IH.
    intros t' Ht'. apply Hbefore. now right.
Qed.


Lemma position_at_finish (finish : Q) :
  duration_ <= finish - startTime -> position finish == target.
Proof.
  intros Hfinish. destruct (progress_after Hfinish) as [Hp _].
  rewrite position_ease, (ease_wd Hp). unfold target.
  assert (H1 : ease 1 == 1) by (rewrite ease_polynomial; ring).
  rewrite H1. ring.
Qed.

Lemma position_between (currentTime : Q) :
  startTime <= currentTime ->
  0 <= ease (progress currentTime) /\ ease (progress currentTime) <= 1.
Proof.
  intros Hafter. destruct duration_positive as [Hpos _].
  assert (H0 : ease 0 == 0) by (rewrite ease_polynomial; ring).
  assert (H1 : ease 1 == 1) by (rewrite ease_polynomial; ring).
  assert (Hp : 0 <= progress currentTime /\ progress currentTime <= 1).
  { destruct (Qlt_le_dec (currentTime - startTime) duration_) as [Hlt|Hge].
    - destruct (progress_before Hlt) as (E & Hl & _). split; [|lra].
      rewrite E. apply Qle_shift_div_l; lra.
    - destruct (progress_after Hge) as (E & _). lra. }
  destruct Hp as [Hlo Hhi].
  pose proof (ease_monotone Hlo). pose proof (ease_monotone Hhi). lra.
Qed.

End Motion.


(** X28.  In exact rational arithmetic: from the start time on, the
    eased progress stays between 0 and 1 and does not decrease from one
    frame to a later one, so the position moves from the start towards
    the target and never passes it.  The code's doubles round the easing
    polynomial and the position, so there both can fail in the last
    digit. *)
Theorem position_moves_towards_target
  (startPosition targetDistance : Q) (direction : Direction)
  (randomDistance randomDuration startTime : Q) (earlier later : Q) :
  0 <= randomDuration /\ randomDuration < 1 ->
  startTime <= earlier ->
  earlier <= later ->
  let progress := progressAt randomDuration startTime in
  let position :=
    positionAt startPosition targetDistance direction randomDistance
               randomDuration startTime in
  let travel := sign direction * actualDistance targetDistance randomDistance in
  0 <= ease (progress earlier) /\
  ease (progress earlier) <= ease (progress later) /\
  ease (progress later) <= 1 /\
  position earlier == startPosition + travel * ease (progress earlier) /\
  Qabs (position earlier - startPosition) <= Qabs travel.
Proof.
  intros Hr Hstart Horder. cbv zeta.
  destruct (duration_positive Hr) as [Hlo Hhi].
  destruct (@position_between randomDuration startTime Hr earlier Hstart) as [He0 He1].
  destruct (@position_between randomDuration startTime Hr later) as [Hl0 Hl1]; [lra|].
  split; [exact He0|]. split.
  - apply ease_monotone. unfold progressAt.
    apply Q.min_le_compat_r.
    apply Qmult_le_compat_r; [lra|]. apply Qlt_le_weak, Qinv_lt_0_compat. lra.
  - split; [exact Hl1|]. split; [reflexivity|].
    set (travel := sign direction * actualDistance targetDistance randomDistance).
    set (eased := ease (progressAt randomDuration startTime earlier)) in *.
    assert (Hpos :
      positionAt startPosition targetDistance direction randomDistance
                 randomDuration startTime earlier - startPosition
      == travel * eased).
    { unfold positionAt, travel, eased, ease. ring. }
    rewrite Hpos, Qabs_Qmult. rewrite (Qabs_pos eased) by exact He0.
    pose proof (Qabs_nonneg travel) as Hnonneg.
    assert (Hslack : 0 <= Qabs travel * (1 - eased))
      by (apply Qmult_le_0_compat; lra).
    lra.
Qed.

Example frame_before_start_moves_backwards :
  positionAt 1000 100 down (1 # 2) (1 # 2) 0 (- (40)) < 1000.
Proof. unfold Qlt. vm_compute. reflexivity. Qed.

End ScrollerProofs.

(* ===================================================================== *)
(** * The motion as a whole, and instances of the properties above *)
(* ===================================================================== *)

Module Instances.

Import Scroller ScrollerSpec ScrollerProofs.

Local Open Scope Q_scope.

(** Comparisons of closed rationals, by computation. *)
Ltac compare_closed :=
  first [ vm_compute; reflexivity | vm_compute; discriminate ].

Lemma Qabs_sign_times (direction : Direction) (x : Q) :
  Qabs (sign direction * x) == Qabs x.
Proof.
  destruct direction; unfold sign.
  - setoid_replace (- (1) * x) with (- x) by ring. apply Qabs_opp.
  - setoid_replace (1 * x) with x by ring. reflexivity.
Qed.

(** X29.  In exact rational arithmetic: on an element that keeps what
    is assigned to it, a scroll that runs to its end reports the jittered
    distance, within 15% of the target distance, and the time elapsed at
    resolution; a micro-pause of 50 to 200 ms precedes the resolution
    exactly when the third random number is below 0.3.  The code's
    doubles round [start + sign * distance], so the distance it reports
    can differ from the jittered distance in the last digit: from 1000
    with a jittered distance of 96.1 it reports 96.10000000000002. *)
Theorem performScroll_reports_jittered_distance
  (startPosition targetDistance : Q) (direction : Direction)
  (randomDistance randomDuration startTime : Q)
  (before after : list Q) (finish randomPause randomWait endTime : Q) :
  0 <= randomDuration /\ randomDuration < 1 ->
  0 <= randomDistance /\ randomDistance < 1 ->
  0 <= randomWait /\ randomWait < 1 ->
  0 <= targetDistance ->
  (forall t, In t before -> t - startTime < scrollDuration randomDuration) ->
  scrollDuration randomDuration <= finish - startTime ->
  exists result pause,
    performScroll (fun v => v) startPosition targetDistance direction
                  randomDistance randomDuration startTime
                  (before ++ finish :: after) randomPause randomWait endTime
    = Some (result, pause) /\
    distance result == actualDistance targetDistance randomDistance /\
    (85 # 100) * targetDistance <= distance result /\
    distance result <= (115 # 100) * targetDistance /\
    duration result = endTime - startTime /\
    (randomPause < 3 # 10 ->
     exists wait, pause = Some wait /\ 50 <= wait /\ wait < 200) /\
    (3 # 10 <= randomPause -> pause = None).
Proof.
  intros Hdur Hdist Hwait Htarget Hbefore Hfinish.
  unfold performScroll.
  rewrite (@animate_finishes (fun v => v) startPosition targetDistance direction
             randomDistance randomDuration startTime Hdur before after finish
             Hbefore Hfinish).
  eexists _, _. split; [reflexivity|]. cbn [distance duration].
  destruct Hdist as [Hd0 Hd1].
  destruct (@jitter_within_variance targetDistance (targetDistance * (15 # 100))
              randomDistance Hd0 Hd1) as (Hlo & Hhi & _); [lra|].
  fold (actualDistance targetDistance randomDistance) in Hlo, Hhi.
  assert (Hdistance :
    Qabs (positionAt startPosition targetDistance direction randomDistance
                     randomDuration startTime finish - startPosition)
    == actualDistance targetDistance randomDistance).
  { rewrite (@position_at_finish startPosition targetDistance direction
               randomDistance randomDuration startTime Hdur finish Hfinish).
    setoid_replace
      (startPosition + sign direction * actualDistance targetDistance randomDistance
       - startPosition)
      with (sign direction * actualDistance targetDistance randomDistance) by ring.
    rewrite Qabs_sign_times. apply Qabs_pos. lra. }
  split; [exact Hdistance|]. rewrite Hdistance.
  split; [lra|]. split; [lra|]. split; [reflexivity|]. split.
  - intros Hpause. destruct (Qle_bool (3 # 10) randomPause) eqn:Hb.
    + apply Qle_bool_iff in Hb. lra.
    + simpl. eexists. split; [reflexivity|]. unfold randomDelay.
      destruct Hwait as [Hw0 Hw1].
      assert (0 <= randomWait * (200 - 50)) by (apply Qmult_le_0_compat; lra).
      assert (randomWait * (200 - 50) < 1 * (200 - 50))
        by (apply Qmult_lt_compat_r; lra).
      split; lra.
  - intros Hno. apply Qle_bool_iff in Hno. now rewrite Hno.
Qed.

Lemma performScroll_reports_jittered_distance_witness :
  (0 <= 1 # 2 /\ 1 # 2 < 1) /\
  0 <= 100 /\
  scrollDuration (1 # 2) <= 400 - 0 /\
  exists result pause,
    performScroll (fun v => v) 1000 100 up (1 # 2) (1 # 2) 0
                  ([16; 200] ++ 400 :: [416]) (1 # 10) (1 # 2) 530
    = Some (result, pause) /\
    distance result == 100.
Proof.
  assert (Hr : 0 <= 1 # 2 /\ 1 # 2 < 1) by (split; compare_closed).
  assert (Ht : 0 <= 100) by compare_closed.
  assert (Hf : scrollDuration (1 # 2) <= 400 - 0) by compare_closed.
  assert (Hb : forall t, In t [16; 200] -> t - 0 < scrollDuration (1 # 2)).
  { intros t [<-|[<-|[]]]; compare_closed. }
  split; [exact Hr|]. split; [exact Ht|]. split; [exact Hf|].
  destruct (@performScroll_reports_jittered_distance
              1000 100 up (1 # 2) (1 # 2) 0 [16; 200] [416] 400 (1 # 10) (1 # 2) 530
              Hr Hr Hr Ht Hb Hf)
    as (result & pause & Hrun & Hd & _).
  exists result, pause. split; [exact Hrun|]. rewrite Hd. reflexivity.
Defined.


Lemma position_moves_towards_target_witness :
  (0 <= 1 # 2 /\ 1 # 2 < 1) /\
  0 <= 16 /\ 16 <= 200 /\
  ease (progressAt (1 # 2) 0 16) <= ease (progressAt (1 # 2) 0 200).
Proof.
  assert (Hr : 0 <= 1 # 2 /\ 1 # 2 < 1) by (split; compare_closed).
  assert (H1 : 0 <= 16) by compare_closed.
  assert (H2 : 16 <= 200) by compare_closed.
  split; [exact Hr|]. split; [exact H1|]. split; [exact H2|].
  destruct (@position_moves_towards_target 1000 100 up (1 # 2) (1 # 2) 0 16 200
              Hr H1 H2) as (_ & Hmono & _).
  exact Hmono.
Defined.

Import RateLimiter RateLimiterSpec RateLimiterRuns RateLimiterMore.

Lemma tryConsume_keeps_bucket_in_bounds_witness :
  inBounds Fixtures.bucketConfig (createRateLimiter Fixtures.bucketConfig 0 0) /\
  0 <= refillRate Fixtures.bucketConfig /\
  lastRefill (createRateLimiter Fixtures.bucketConfig 0 0) <= 250 /\
  0 <= 4 /\
  inBounds Fixtures.bucketConfig
    (snd (tryConsume Fixtures.bucketConfig 250 (1 # 2) 250 250 4
                     (createRateLimiter Fixtures.bucketConfig 0 0))).
Proof.
  assert (Hin : inBounds Fixtures.bucketConfig
                  (createRateLimiter Fixtures.bucketConfig 0 0))
    by (split; compare_closed).
  assert (Hrate : 0 <= refillRate Fixtures.bucketConfig) by compare_closed.
  assert (Hmono : lastRefill (createRateLimiter Fixtures.bucketConfig 0 0) <= 250)
    by compare_closed.
  assert (Hcount : 0 <= 4) by compare_closed.
  split; [exact Hin|]. split; [exact Hrate|]. split; [exact Hmono|].
  split; [exact Hcount|].
  exact (@tryConsume_keeps_bucket_in_bounds Fixtures.bucketConfig
           250 (1 # 2) 250 250 4 _ Hin Hrate Hmono Hcount).
Defined.

Lemma tryConsume_during_pause_changes_nothing_witness :
  300 - lastPauseCheck Fixtures.pausedState < pauseInterval Fixtures.pauseConfig /\
  pausedUntil Fixtures.pausedState = Some 1200 /\
  300 < 1200 /\
  tryConsume Fixtures.pauseConfig 300 (1 # 2) 300 300 1 Fixtures.pausedState
  = (false, Fixtures.pausedState).
Proof.
  assert (H1 : 300 - lastPauseCheck Fixtures.pausedState
               < pauseInterval Fixtures.pauseConfig) by compare_closed.
  assert (H2 : 300 < 1200) by compare_closed.
  split; [exact H1|]. split; [reflexivity|]. split; [exact H2|].
  exact (@tryConsume_during_pause_changes_nothing Fixtures.pauseConfig
           300 (1 # 2) 300 300 1 1200 Fixtures.pausedState H1 eq_refl H2).
Defined.

Lemma mandatory_pause_lasts_until_pausedUntil_witness :
  pauseInterval Fixtures.pauseConfig
  <= 1100 - lastPauseCheck Fixtures.pausedState /\
  1100 < 1100 + (500 + (1 # 2) * (500 - 500)) /\
  (let armed :=
     snd (tryConsume Fixtures.pauseConfig 1100 (1 # 2) 1100 1100 1
                     Fixtures.pausedState) in
   fst (isPaused 1500 armed) = true /\ fst (isPaused 1700 armed) = false).
Proof.
  assert (Hdue : pauseInterval Fixtures.pauseConfig
                 <= 1100 - lastPauseCheck Fixtures.pausedState) by compare_closed.
  assert (Hlt : 1100 < 1100 + (500 + (1 # 2) * (500 - 500))) by compare_closed.
  split; [exact Hdue|]. split; [exact Hlt|].
  destruct (@mandatory_pause_lasts_until_pausedUntil Fixtures.pauseConfig
              1100 (1 # 2) 1100 1100 1 Fixtures.pausedState Hdue Hlt)
    as (_ & _ & Hduring & Hafter).
  cbv zeta. split.
  - apply Hduring. compare_closed.
  - apply Hafter. compare_closed.
Defined.

Lemma reset_restores_full_unpaused_bucket_witness :
  0 <= refillRate Fixtures.pauseConfig /\
  2000 <= 2600 /\
  fst (getTokens Fixtures.pauseConfig 2600
         (reset Fixtures.pauseConfig 2000 2000 Fixtures.pausedState)) = 100%Z.
Proof.
  assert (Hrate : 0 <= refillRate Fixtures.pauseConfig) by compare_closed.
  assert (Hmono : 2000 <= 2600) by compare_closed.
  split; [exact Hrate|]. split; [exact Hmono|].
  destruct (@reset_restores_full_unpaused_bucket Fixtures.pauseConfig
              2000 2000 2600 Fixtures.pausedState Hrate Hmono) as (_ & Htokens & _).
  exact Htokens.
Defined.

End Instances.

Module BatchInstance.

Import MainWorld MainWorldSpec MainWorldProofs.

Lemma extractMessages_batch_witness :
  exists messages,
    extractMessages MainWorldFixtures.messageFiber (fun _ => "uuid") 1 0 0 = Some (messages, 1) /\
    attachmentIds messages = ["uuid"].
Proof.
  destruct (extractMessages MainWorldFixtures.messageFiber (fun _ => "uuid") 1 0 0)
    as [[messages final]|] eqn:E; [|discriminate E].
  assert (Hfinal : final = 1) by (vm_compute in E; congruence).
  subst final. exists messages. split; [reflexivity|].
  destruct (@extractMessages_batch MainWorldFixtures.messageFiber (fun _ => "uuid") 1 0 0 messages 1 E)
    as (_ & _ & Hids & _).
  exact Hids.
Defined.

End BatchInstance.
